(** * ci/check_i18n_quality.py: translation catalog validation

    A shallow embedding of the catalog checker and the properties of its
    specification.

    - [Py] models the parts of the Python runtime the script calls:
      [str] methods, [float], [int / int], the [.1%] format, [Path].
    - [I18n] is the script itself: [parse_ratio], [load_json],
      [validate_catalog_dir] and [main], over an explicit environment and
      file system.
    - The theorems follow the definitions.

    A Python [str] is a [string] whose characters are code points below 256.
    A Python [float] is an IEEE 754 binary64 value, [spec_float] at precision
    53 and maximal exponent 1024. *)

From Stdlib Require Import ZArith Ascii String List SpecFloat.
From stdpp Require Import base option list sorting gmap strings pretty.

(* stdpp's solvers clear hypotheses by name; the names they miss are noise. *)
#[local] Set Warnings "-clear-no-such-hyp".

Local Open Scope Z_scope.

(** ** The Python runtime *)

Module Py.

(** *** Strings *)

(** [str.isspace] on one character: the code points below 256 that Unicode
    classes as white space. *)
Definition isspace (c : ascii) : bool :=
  let n := N_of_ascii c in
  ((9 <=? n) && (n <=? 13) || (28 <=? n) && (n <=? 32)
   || (n =? 133) || (n =? 160))%N.

Fixpoint lstrip (s : string) : string :=
  match s with
  | String c s' => if isspace c then lstrip s' else s
  | EmptyString => EmptyString
  end.

Definition rstrip (s : string) : string := String.rev (lstrip (String.rev s)).

(** [s.strip()] *)
Definition strip (s : string) : string := rstrip (lstrip s).

(** [s.startswith(prefix)] *)
Definition startswith (s prefix : string) : bool := String.prefix prefix s.

(** [s.endswith(suffix)] *)
Definition endswith (s suffix : string) : bool :=
  String.prefix (String.rev suffix) (String.rev s).

(** [sep.join(l)] *)
Definition join (sep : string) (l : list string) : string := String.concat sep l.

(** [str(n)] for a non-negative [int]. *)
Definition str_of_nat (n : nat) : string := pretty n.

(** [s.rfind(".")], [None] for Python's [-1]. *)
Fixpoint rfind_dot (s : string) : option nat :=
  match s with
  | EmptyString => None
  | String c s' =>
      match rfind_dot s' with
      | Some i => Some (S i)
      | None => if Ascii.eqb c "." then Some 0%nat else None
      end
  end.

(** *** Floats *)

Definition float : Type := spec_float.

Definition prec : Z := 53.
Definition emax : Z := 1024.

(** [a < b] and [a > b] on floats; both are false when either side is NaN. *)
Definition float_lt (a b : float) : bool := SFltb a b.
Definition float_gt (a b : float) : bool := SFltb b a.

(** [float(n)] for an [int]: the nearest binary64 value, ties to even. *)
Definition float_of_Z (n : Z) : float := binary_normalize prec emax n 0 false.

Definition float_zero : float := S754_zero false.
Definition float_one : float := Eval vm_compute in float_of_Z 1.

(** The correctly rounded quotient of two positive integers. [SFdiv] shifts
    the dividend far enough for every pair of mantissas, normalised or not. *)
Definition round_quotient (s : bool) (a b : positive) : float :=
  SFdiv prec emax (S754_finite s a 0) (S754_finite false b 0).

(** [a / b] on non-negative [int]s (true division): the quotient rounded
    once; [None] stands for [ZeroDivisionError]. *)
Definition int_truediv (a b : nat) : option float :=
  match Z.of_nat a, Z.of_nat b with
  | _, Z0 => None
  | Zpos p, Zpos q => Some (round_quotient false p q)
  | _, _ => Some float_zero
  end.

(** The value [(-1)^s * m * 10^e] rounded to a float, as [float(str)] rounds a
    decimal literal. *)
Definition float_of_decimal (s : bool) (m : Z) (e : Z) : float :=
  match m with
  | Zpos p =>
      match e with
      | Zneg k => round_quotient s p (Pos.pow 10 k)
      | _ => binary_normalize prec emax (if s then - (m * 10 ^ e) else m * 10 ^ e) 0 s
      end
  | _ => S754_zero s
  end.

(** *** [float(str)]

    CPython strips white space, checks the underscores (allowed only between
    two digits), reads an optional sign and then either a decimal literal
    [digits [. digits] [e [sign] digits]] with at least one mantissa digit, or
    one of [inf], [infinity], [nan] in any case. Anything else raises
    [ValueError], here [None]. *)

(** The white space [float] strips: the ASCII characters of C's [isspace],
    and the white space above 127, which CPython first turns into blanks. *)
Definition float_space (c : ascii) : bool :=
  let n := N_of_ascii c in
  ((9 <=? n) && (n <=? 13) || (n =? 32) || (n =? 133) || (n =? 160))%N.

Fixpoint float_lstrip (s : string) : string :=
  match s with
  | String c s' => if float_space c then float_lstrip s' else s
  | EmptyString => EmptyString
  end.

Definition float_strip (s : string) : string :=
  String.rev (float_lstrip (String.rev (float_lstrip s))).

Definition is_digit (c : ascii) : bool := bool_decide (is_Some (Ascii.is_nat c)).

(** Drops the underscores; [None] when one does not stand between two digits.
    [prev] is the character before [s]. *)
Fixpoint drop_underscores (prev : ascii) (s : string) : option string :=
  match s with
  | EmptyString => if Ascii.eqb prev "_" then None else Some EmptyString
  | String c s' =>
      if Ascii.eqb c "_" then
        if is_digit prev then drop_underscores c s' else None
      else if Ascii.eqb prev "_" && negb (is_digit c) then None
      else String c <$> drop_underscores c s'
  end.

(** Reads the digits at the front of [s]: their value after [acc], how many
    there were after [n], and the rest of the string. *)
Fixpoint read_digits (s : string) (acc : Z) (n : Z) : Z * Z * string :=
  match s with
  | String c s' =>
      match Ascii.is_nat c with
      | Some d => read_digits s' (10 * acc + Z.of_nat d) (n + 1)
      | None => (acc, n, s)
      end
  | EmptyString => (acc, n, s)
  end.

Definition read_sign (s : string) : bool * string :=
  match s with
  | String "-" s' => (true, s')
  | String "+" s' => (false, s')
  | _ => (false, s)
  end.

(** ASCII lower case, for the case-insensitive words. *)
Definition lower (c : ascii) : ascii :=
  let n := N_of_ascii c in
  if ((65 <=? n) && (n <=? 90))%N then ascii_of_N (n + 32) else c.

Fixpoint lower_str (s : string) : string :=
  match s with
  | String c s' => String (lower c) (lower_str s')
  | EmptyString => EmptyString
  end.

(** A decimal literal without sign: mantissa and decimal exponent. *)
Definition read_number (s : string) : option (Z * Z) :=
  let '(m1, n1, s1) := read_digits s 0 0 in
  let '(m, nfrac, s2) :=
    match s1 with
    | String "." s' => read_digits s' m1 0
    | _ => (m1, 0, s1)
    end in
  if (n1 + nfrac =? 0) then None
  else
    match s2 with
    | EmptyString => Some (m, - nfrac)
    | String c s3 =>
        if Ascii.eqb (lower c) "e" then
          let '(neg, s4) := read_sign s3 in
          let '(ex, nx, s5) := read_digits s4 0 0 in
          if (nx =? 0) then None
          else if String.eqb s5 EmptyString
          then Some (m, (if neg then - ex else ex) - nfrac)
          else None
        else None
    end.

Definition float_of_string (raw : string) : option float :=
  s ← drop_underscores "000" (float_strip raw);
  let '(neg, body) := read_sign s in
  let word := lower_str body in
  if String.eqb word "inf" || String.eqb word "infinity" then Some (S754_infinity neg)
  else if String.eqb word "nan" then Some S754_nan
  else '(m, e) ← read_number body; Some (float_of_decimal neg m e).

(** *** [format(x, ".1%")]

    CPython multiplies by 100 in floating point, then prints the product with
    one digit after the point, rounding the exact binary value to the nearest
    tenth, ties to even, and appends the percent sign. *)

(** The number of tenths nearest to [m * 2^e]. *)
Definition nearest_tenths (m : positive) (e : Z) : Z :=
  match e with
  | Zneg k =>
      let d := Z.pow 2 (Zpos k) in
      let q := (10 * Zpos m) / d in
      let r := (10 * Zpos m) mod d in
      if (d <? 2 * r) || ((d =? 2 * r) && Z.odd q) then q + 1 else q
  | _ => 10 * Zpos m * Z.pow 2 e
  end.

Definition fixed1 (s : bool) (tenths : Z) : string :=
  (if s then "-" else "") +:+ pretty (tenths / 10) +:+ "." +:+ pretty (tenths mod 10).

Definition format_percent1 (x : float) : string :=
  match SFmul prec emax x (float_of_Z 100) with
  | S754_nan => "nan%"
  | S754_infinity s => (if s then "-inf%" else "inf%")
  | S754_zero s => fixed1 s 0 +:+ "%"
  | S754_finite s m e => fixed1 s (nearest_tenths m e) +:+ "%"
  end.

(** *** [pathlib.Path]

    An absolute path is the list of its components below the root. *)

Abbreviation Path := (list string) (only parsing).

(** [p / name] for a single component [name]. *)
Definition joinpath (p : Path) (name : string) : Path := p ++ [name].

(** [p.parent]; the root is its own parent. *)
Definition parent (p : Path) : Path := removelast p.

(** [p.name] *)
Definition name (p : Path) : string := List.last p "".

(** [p.stem]: the name up to its last dot, when that dot is neither the first
    nor the last character of the name. *)
Definition stem (p : Path) : string :=
  let n := name p in
  match rfind_dot n with
  | Some i =>
      if ((0 <? i) && (i <? String.length n - 1))%nat
      then String.substring 0 i n else n
  | None => n
  end.

(** [str(p)] *)
Definition path_str (p : Path) : string :=
  match p with
  | [] => "/"
  | _ => String.concat "" (map (String.append "/") p)
  end.

(** The order [sorted] uses on paths: component by component, each component
    by code points. *)
Fixpoint path_compare (p q : Path) : comparison :=
  match p, q with
  | [], [] => Eq
  | [], _ :: _ => Lt
  | _ :: _, [] => Gt
  | a :: p', b :: q' =>
      match String.compare a b with
      | Eq => path_compare p' q'
      | c => c
      end
  end.

Definition path_le (p q : Path) : Prop := path_compare p q <> Gt.

#[global] Instance path_le_dec : RelDecision path_le.
Proof. intros p q. unfold path_le. apply _. Defined.

(** [sorted(paths)] *)
Definition sorted_paths (l : list Path) : list Path := merge_sort path_le l.

(** [sorted(strings)] *)
Definition sorted_strs (l : list string) : list string := merge_sort String.le l.

End Py.

(** ** The script *)

Module I18n.
Import Py.

(** *** Outcomes

    A call returns a value or raises. The script raises [SystemExit] with a
    message; [KeyError] and [ZeroDivisionError] are what [data[key]] and [/]
    raise, and the script catches neither. *)

Inductive io_error : Type :=
| FileNotFoundError
| LoadError (text : string).

(** The messages of the [raise SystemExit(...)] statements, one constructor
    per statement, with the values its f-string interpolates. *)
Inductive exit_message : Type :=
| MustBeFloat (env_name raw : string)
| MustBeInRange (env_name : string) (value : float)
| FailedToRead (path : Path) (exc : io_error)
| NotJsonObject (path : Path)
| NonStringValues (path : Path) (preview : string).

Inductive exn : Type :=
| SystemExit (msg : exit_message)
| KeyError (key : string)
| ZeroDivisionError.

Inductive result (A : Type) : Type :=
| Return (a : A)
| Raise (e : exn).

Arguments Return {A} a.
Arguments Raise {A} e.

#[global] Instance result_ret : MRet result := @Return.
#[global] Instance result_bind : MBind result := λ A B f r,
  match r with
  | Return a => f a
  | Raise e => Raise e
  end.
#[global] Instance result_fmap : FMap result := λ A B f r,
  match r with
  | Return a => Return (f a)
  | Raise e => Raise e
  end.

(** [for x in xs: body], the loop's variables threaded as [s]. *)
Fixpoint for_each {A S : Type} (xs : list A) (body : S → A → result S) (s : S)
  : result S :=
  match xs with
  | [] => Return s
  | x :: xs' => s' ← body s x; for_each xs' body s'
  end.

(** *** Dictionaries

    A [dict] keeps its items in insertion order, one item per key. *)

Abbreviation dict V := (list (string * V)) (only parsing).

(** [d[k] = v]: replaces the value in place, or appends a new item. *)
Fixpoint dict_set {V : Type} (d : dict V) (k : string) (v : V) : dict V :=
  match d with
  | [] => [(k, v)]
  | (k', v') :: d' =>
      if String.eqb k k' then (k, v) :: d' else (k', v') :: dict_set d' k v
  end.

(** [dict(pairs)] *)
Definition dict_of_pairs {V : Type} (pairs : list (string * V)) : dict V :=
  fold_left (λ d kv, dict_set d kv.1 kv.2) pairs [].

Fixpoint dict_get {V : Type} (d : dict V) (k : string) : option V :=
  match d with
  | [] => None
  | (k', v) :: d' => if String.eqb k k' then Some v else dict_get d' k
  end.

(** [d[k]] *)
Definition getitem {V : Type} (d : dict V) (k : string) : result V :=
  match dict_get d k with
  | Some v => Return v
  | None => Raise (KeyError k)
  end.

(** [set(d.keys())] *)
Definition key_set {V : Type} (d : dict V) : gset string := list_to_set d.*1.

(** *** The file system and the environment

    A JSON document as [json.load] returns it; an object is the list of its
    members in the order of the text, repeated names included. *)
#[local] Unset Elimination Schemes.
Inductive json : Type :=
| JNull
| JBool (b : bool)
| JNumber (literal : string)
| JString (s : string)
| JArray (items : list json)
| JObject (members : list (string * json)).
#[local] Set Elimination Schemes.

(** What opening a directory entry and running [json.load] on it gives: the
    exception raised (a directory, a permission, bad JSON, bad UTF-8), or the
    document. *)
Inductive file : Type :=
| Unreadable (text : string)
| Contents (doc : json).

(** A directory: its entries in the order the system enumerates them. *)
Abbreviation directory := (list (string * file)) (only parsing).

(** The directories of the file system; [None] where no directory is. *)
Definition filesystem : Type := Path → option directory.

(** The entry called [n]. *)
Definition find_entry (d : directory) (n : string) : option file := dict_get d n.

Definition lookup_file (fs : filesystem) (p : Path) : option file :=
  match p with
  | [] => None
  | _ => d ← fs (parent p); find_entry d (name p)
  end.

(** [p.exists()] for the path of a file. *)
Definition path_exists (fs : filesystem) (p : Path) : bool :=
  bool_decide (is_Some (lookup_file fs p)).

(** [path.glob("*.json")]: the entries whose name ends in [.json], in the
    order of the enumeration; nothing when [path] is no directory. *)
Definition glob_json (fs : filesystem) (path : Path) : list Path :=
  match fs path with
  | Some d => joinpath path <$> filter (λ n, endswith n ".json" = true) d.*1
  | None => []
  end.

(** [with path.open(...) as handle: raw = json.load(handle)] *)
Definition open_and_load (fs : filesystem) (path : Path) : io_error + json :=
  match lookup_file fs path with
  | None => inl FileNotFoundError
  | Some (Unreadable text) => inl (LoadError text)
  | Some (Contents doc) => inr doc
  end.

(** [os.environ] *)
Abbreviation environ := (gmap string string) (only parsing).

Definition getenv (env : environ) (env_name : string) : option string :=
  env !! env_name.

(** *** Validation errors

    One constructor per f-string the script appends to [errors], with the
    values it interpolates; [error_message] is the string. *)
Inductive error : Type :=
| MissingBase (base_path : Path)
| BaseNoKeys (base_path : Path)
| KeyMismatch (locale_file : Path) (details : list string)
| FullClone (locale_file : Path) (same key_total : nat)
| TooManySame (locale_file : Path) (same key_total : nat)
    (ratio max_same_ratio : float).

Definition error_message (e : error) : string :=
  match e with
  | MissingBase base_path => "missing base catalog: " +:+ path_str base_path
  | BaseNoKeys base_path => "base catalog has no keys: " +:+ path_str base_path
  | KeyMismatch locale_file details =>
      path_str locale_file +:+ ": key mismatch (" +:+ join ", " details +:+ ")"
  | FullClone locale_file same key_total =>
      path_str locale_file +:+ ": appears to be a full English clone ("
      +:+ str_of_nat same +:+ "/" +:+ str_of_nat key_total +:+ ")"
  | TooManySame locale_file same key_total ratio max_same_ratio =>
      path_str locale_file +:+ ": too many English-identical values ("
      +:+ str_of_nat same +:+ "/" +:+ str_of_nat key_total +:+ " = "
      +:+ format_percent1 ratio +:+ ", max " +:+ format_percent1 max_same_ratio
      +:+ ")"
  end.

(** The path an error is reported against. *)
Definition error_path (e : error) : Path :=
  match e with
  | MissingBase p | BaseNoKeys p => p
  | KeyMismatch p _ | FullClone p _ _ | TooManySame p _ _ _ _ => p
  end.

(** The text of an exit message. What the interpreter alone decides is a
    parameter: [repr] of a string, [str] of a float, [str] of the exception
    that [open] or [json.load] raised. *)
Section ExitText.
Variable repr_str : string → string.
Variable str_float : float → string.
Variable str_exc : io_error → string.

Definition exit_text (msg : exit_message) : string :=
  match msg with
  | MustBeFloat env_name raw =>
      env_name +:+ " must be a float between 0.0 and 1.0, got: " +:+ repr_str raw
  | MustBeInRange env_name value =>
      env_name +:+ " must be between 0.0 and 1.0, got: " +:+ str_float value
  | FailedToRead path exc =>
      "failed to read/parse JSON file " +:+ path_str path +:+ ": " +:+ str_exc exc
  | NotJsonObject path =>
      "catalog file is not a JSON object: " +:+ path_str path
  | NonStringValues path preview =>
      "catalog " +:+ path_str path +:+ " has non-string values for keys: "
      +:+ preview
  end.

End ExitText.

(** *** [parse_ratio] *)

Definition parse_ratio (env : environ) (env_name : string) (default : float)
  : result float :=
  match getenv env env_name with
  | None => Return default
  | Some raw =>
      if String.eqb (strip raw) "" then Return default
      else
        match float_of_string raw with
        | None => Raise (SystemExit (MustBeFloat env_name raw))
        | Some value =>
            if float_lt value float_zero || float_gt value float_one
            then Raise (SystemExit (MustBeInRange env_name value))
            else Return value
        end
  end.

(** *** [load_json] *)

Definition is_str (v : json) : bool :=
  match v with
  | JString _ => true
  | _ => false
  end.

(** The items of a dictionary whose values are all strings, typed as such. *)
Definition str_items (raw : dict json) : dict string :=
  omap (λ kv, match kv.2 with JString s => Some (kv.1, s) | _ => None end) raw.

Definition load_json (fs : filesystem) (path : Path) : result (dict string) :=
  match open_and_load fs path with
  | inl exc => Raise (SystemExit (FailedToRead path exc))
  | inr (JObject members) =>
      let raw := dict_of_pairs members in
      let non_string := (filter (λ kv, is_str kv.2 = false) raw).*1 in
      match non_string with
      | _ :: _ =>
          let preview := join ", " (take 5 non_string) in
          Raise (SystemExit (NonStringValues path preview))
      | [] => Return (str_items raw)
      end
  | inr _ => Raise (SystemExit (NotJsonObject path))
  end.

(** *** [validate_catalog_dir] *)

(** [sum(1 for key in keys if data[key] == base[key])] *)
Fixpoint count_same (base data : dict string) (keys : list string) : result nat :=
  match keys with
  | [] => Return 0%nat
  | key :: keys' =>
      d ← getitem data key;
      b ← getitem base key;
      n ← count_same base data keys';
      Return (if String.eqb d b then S n else n)
  end.

(** [same / key_total] *)
Definition truediv (same key_total : nat) : result float :=
  match int_truediv same key_total with
  | Some ratio => Return ratio
  | None => Raise ZeroDivisionError
  end.

(** The body of the loop over the locale files: from the errors so far to the
    errors after this file. *)
Definition check_locale_file (fs : filesystem) (base : dict string)
    (base_keys : gset string) (key_total : nat) (max_same_ratio : float)
    (errors : list error) (locale_file : Path) : result (list error) :=
  let locale := stem locale_file in
  if startswith locale "en" then Return errors
  else
    data ← load_json fs locale_file;
    let keys := key_set data in
    let missing := sorted_strs (elements (base_keys ∖ keys)) in
    let extra := sorted_strs (elements (keys ∖ base_keys)) in
    if bool_decide (missing ≠ []) || bool_decide (extra ≠ []) then
      let details := [] in
      let details :=
        if bool_decide (missing ≠ [])
        then details ++ ["missing=" +:+ str_of_nat (length missing)]
        else details in
      let details :=
        if bool_decide (extra ≠ [])
        then details ++ ["extra=" +:+ str_of_nat (length extra)]
        else details in
      Return (errors ++ [KeyMismatch locale_file details])
    else
      same ← count_same base data (elements base_keys);
      if (same =? key_total)%nat then
        Return (errors ++ [FullClone locale_file same key_total])
      else
        ratio ← truediv same key_total;
        if float_gt ratio max_same_ratio then
          Return (errors ++
                  [TooManySame locale_file same key_total ratio max_same_ratio])
        else Return errors.

Definition validate_catalog_dir (fs : filesystem) (path : Path)
    (max_same_ratio : float) : result (list error) :=
  let errors := [] in
  let base_path := joinpath path "en.json" in
  if negb (path_exists fs base_path) then Return [MissingBase base_path]
  else
    base ← load_json fs base_path;
    let base_keys := key_set base in
    let key_total := size base_keys in
    if (key_total =? 0)%nat then Return [BaseNoKeys base_path]
    else
      for_each (sorted_paths (glob_json fs path))
        (check_locale_file fs base base_keys key_total max_same_ratio) errors.

(** *** [main] *)

(** The literals [0.60] and [0.40]. *)
Definition default_cli : float := Eval vm_compute in float_of_decimal false 60 (-2).
Definition default_wizard : float := Eval vm_compute in float_of_decimal false 40 (-2).

(** [main], given the environment, the file system and the resolved path of
    the script: the lines it prints and the status it returns. *)
Definition main (env : environ) (fs : filesystem) (script : Path)
  : result (list string * Z) :=
  let root := parent (parent script) in
  cli_max_same_ratio ← parse_ratio env "I18N_MAX_SAME_RATIO_OPERATOR_CLI" default_cli;
  wizard_max_same_ratio ←
    parse_ratio env "I18N_MAX_SAME_RATIO_OPERATOR_WIZARD" default_wizard;
  let checks :=
    [ (joinpath (joinpath root "i18n") "operator_cli", cli_max_same_ratio);
      (joinpath (joinpath root "i18n") "operator_wizard", wizard_max_same_ratio) ] in
  all_errors ←
    for_each checks
      (λ all_errors check,
         errs ← validate_catalog_dir fs check.1 check.2;
         Return (all_errors ++ errs)) [];
  match all_errors with
  | _ :: _ =>
      Return ("[i18n-check] FAILED:"
              :: ((λ err, "  - " +:+ error_message err) <$> all_errors), 1)
  | [] => Return (["[i18n-check] ok"], 0)
  end.

(** [sys.exit(main())]: the status of the process. An exception that reaches
    the top, [SystemExit] with a message included, gives status 1. *)
Definition exit_status (r : result (list string * Z)) : Z :=
  match r with
  | Return (_, status) => status
  | Raise _ => 1
  end.

End I18n.

Import Py I18n.
Local Close Scope Z_scope.

(** ** The vocabulary of the specification *)

(** Every value of the dictionary is a string. *)
Definition all_strings (raw : dict json) : Prop :=
  Forall (λ kv, is_str kv.2 = true) raw.

(** The errors reported against the file [f]. *)
Definition errors_for (f : Path) (errs : list error) : list error :=
  filter (λ e, error_path e = f) errs.

(** The errors of the comparison of a locale file with the base. *)
Definition is_locale_error (e : error) : bool :=
  match e with
  | KeyMismatch _ _ | FullClone _ _ _ | TooManySame _ _ _ _ _ => true
  | MissingBase _ | BaseNoKeys _ => false
  end.

(** The ratio-breach errors. *)
Definition is_ratio_breach (e : error) : bool :=
  match e with
  | TooManySame _ _ _ _ _ => true
  | _ => false
  end.

(** [same]: how many items of the base the locale repeats, value included. *)
Definition same_values (base data : dict string) : nat :=
  length (filter (λ kv, dict_get data kv.1 = Some kv.2) base).

(** How many base keys the locale lacks, and how many keys it adds. *)
Definition missing_count (base data : dict string) : nat :=
  size (key_set base ∖ key_set data).
Definition extra_count (base data : dict string) : nat :=
  size (key_set data ∖ key_set base).

(** The counts a key mismatch reports: each one only when it is not zero. *)
Definition mismatch_details (base data : dict string) : list string :=
  (if decide (missing_count base data = 0) then []
   else ["missing=" +:+ str_of_nat (missing_count base data)])
  ++ (if decide (extra_count base data = 0) then []
      else ["extra=" +:+ str_of_nat (extra_count base data)]).

(** The directory at [path] with the contents of its entry [n] replaced. *)
Definition replace_entry (fs : filesystem) (path : Path) (n : string)
    (f : file) : filesystem :=
  λ q, if decide (q = path)
       then fmap (M := list) (λ entry, if String.eqb entry.1 n then (entry.1, f) else entry)
              <$> fs q
       else fs q.

(** Two file systems with the same directories, each enumerated in some
    order of its own, and no name twice in a directory. *)
Definition same_files (fs1 fs2 : filesystem) : Prop :=
  ∀ p, match fs1 p, fs2 p with
       | Some d1, Some d2 => d1 ≡ₚ d2 ∧ NoDup d1.*1
       | None, None => True
       | _, _ => False
       end.

(** The run was cut short: a file other than [f] failed to load, and [e] is
    what [load_json] raised on it. *)
Definition aborted_by_other_file (fs : filesystem) (path f : Path)
    (e : exn) : Prop :=
  ∃ g, g ∈ glob_json fs path ∧ g ≠ f ∧ load_json fs g = Raise e.

(** The verdict on one file of a directory, as the specification of the loop
    body: what the file is and holds, and the outcome that goes with it. *)
Inductive verdict (fs : filesystem) (base : dict string) (max_same_ratio : float)
    (f : Path) : result (list error) → Prop :=
| Skipped :
    startswith (stem f) "en" = true →
    verdict fs base max_same_ratio f (Return [])
| Unloadable e :
    startswith (stem f) "en" = false → load_json fs f = Raise e →
    verdict fs base max_same_ratio f (Raise e)
| Mismatched data :
    startswith (stem f) "en" = false → load_json fs f = Return data →
    key_set data ≠ key_set base →
    verdict fs base max_same_ratio f
      (Return [KeyMismatch f (mismatch_details base data)])
| Cloned data :
    startswith (stem f) "en" = false → load_json fs f = Return data →
    key_set data = key_set base →
    (∀ k v, (k, v) ∈ base → dict_get data k = Some v) →
    verdict fs base max_same_ratio f
      (Return [FullClone f (length base) (length base)])
| Breached data ratio :
    startswith (stem f) "en" = false → load_json fs f = Return data →
    key_set data = key_set base →
    same_values base data < length base →
    int_truediv (same_values base data) (length base) = Some ratio →
    float_gt ratio max_same_ratio = true →
    verdict fs base max_same_ratio f
      (Return [TooManySame f (same_values base data) (length base) ratio
                 max_same_ratio])
| Passed data ratio :
    startswith (stem f) "en" = false → load_json fs f = Return data →
    key_set data = key_set base →
    same_values base data < length base →
    int_truediv (same_values base data) (length base) = Some ratio →
    float_gt ratio max_same_ratio = false →
    verdict fs base max_same_ratio f (Return []).

(** Two outcomes that agree but for the ratio-breach errors: the same
    exception, or the same errors once the ratio breaches are left out. *)
Definition same_but_ratio (r1 r2 : result (list error)) : Prop :=
  match r1, r2 with
  | Return errs1, Return errs2 =>
      filter (λ e, is_ratio_breach e = false) errs1
      = filter (λ e, is_ratio_breach e = false) errs2
  | Raise e1, Raise e2 => e1 = e2
  | _, _ => False
  end.

(** An error as it reads under the threshold [max]: a ratio breach quotes
    the threshold, the other errors do not. *)
Definition with_max (max : float) (e : error) : error :=
  match e with
  | TooManySame f same key_total ratio _ => TooManySame f same key_total ratio max
  | _ => e
  end.

(** The outcome under a looser threshold, next to the outcome under a
    stricter one: the same exception, or some of the same errors. *)
Definition loosened (max : float) (strict loose : result (list error)) : Prop :=
  match strict, loose with
  | Return errs1, Return errs2 => errs2 `sublist_of` (with_max max <$> errs1)
  | Raise e1, Raise e2 => e1 = e2
  | _, _ => False
  end.

(** The order of two floats of one sign: by exponent, then by mantissa. *)
Definition compare_magnitude (e1 : Z) (m1 : positive) (e2 : Z) (m2 : positive)
  : comparison :=
  match Z.compare e1 e2 with
  | Lt => Lt
  | Gt => Gt
  | Eq => Pos.compare_cont Eq m1 m2
  end.

(** [a <= b] on floats; false when either side is NaN. *)
Definition float_le (a b : float) : bool := SFleb a b.

(** Two outcomes of [load_json] that agree as mappings: the same exception,
    or the same items in some order. *)
Definition same_catalog (r1 r2 : result (dict string)) : Prop :=
  match r1, r2 with
  | Return d1, Return d2 => d1 ≡ₚ d2
  | Raise e1, Raise e2 => e1 = e2
  | _, _ => False
  end.

(** The two catalog directories of [main]. *)
Definition cli_dir (script : Path) : Path :=
  joinpath (joinpath (parent (parent script)) "i18n") "operator_cli".
Definition wizard_dir (script : Path) : Path :=
  joinpath (joinpath (parent (parent script)) "i18n") "operator_wizard".

(** *** Sample inputs *)

(** A catalog file: the JSON object of the given items. *)
Definition catalog (items : dict string) : file :=
  Contents (JObject (prod_map id JString <$> items)).

(** The file system that holds the one directory [dir], at [path]. *)
Definition one_directory (path : Path) (dir : directory)
  : filesystem :=
  λ q, if decide (q = path) then Some dir else None.

(** The file system that holds the two catalog directories of the script at
    [/repo/ci/check_i18n_quality.py]. *)
Definition repo_script : Path := ["repo"; "ci"; "check_i18n_quality.py"].
Definition repo (cli wizard : option (directory)) : filesystem :=
  λ q, if decide (q = ["repo"; "i18n"; "operator_cli"]) then cli
       else if decide (q = ["repo"; "i18n"; "operator_wizard"]) then wizard
       else None.

(** The base of the specification's examples, and its threshold 0.5. *)
Definition base_ab : dict string := [("a", "1"); ("b", "2")].
Definition half : float := Eval vm_compute in float_of_decimal false 5 (-1).

(** A directory with the base and one French catalog. *)
Definition with_french (items : dict string) : filesystem :=
  one_directory ["i18n"] [("fr.json", catalog items); ("en.json", catalog base_ab)].

(** A directory with the base, a British variant that is not JSON at all and
    a French catalog that repeats one value of two. *)
Definition with_british : filesystem :=
  one_directory ["i18n"]
    [("fr.json", catalog [("a", "1"); ("b", "X")]);
     ("en-GB.json", Unreadable "not JSON");
     ("en.json", catalog base_ab)].

(** A French catalog whose object maps seven keys to values that are not
    strings; the first number under [a] is replaced by the later string. *)
Definition french_members : dict json :=
  [("a", JNumber "1"); ("b", JString "x"); ("c", JNull); ("a", JString "z");
   ("d", JNull); ("e", JBool true); ("f", JArray []); ("g", JObject []);
   ("h", JNull); ("i", JNumber "2")].
Definition with_numbers : filesystem :=
  one_directory ["i18n"]
    [("fr.json", Contents (JObject french_members)); ("en.json", catalog base_ab)].

(** The same directory with three locale files, enumerated in two orders. *)
Definition three_locales : directory :=
  [("it.json", catalog [("a", "1"); ("b", "2")]);
   ("en.json", catalog base_ab);
   ("de.json", catalog [("a", "1")]);
   ("fr.json", catalog [("a", "1"); ("b", "X")])].
Definition enumerated (dir : directory) : filesystem :=
  repo (Some dir) (Some dir).

(** An environment that sets the one variable [env_name] to [raw]. *)
Definition setenv (env_name raw : string) : environ :=
  {[ env_name := raw ]}.

(** A French catalog that repeats one value of two, and its directory with a
    file of notes beside the catalogs. *)
Definition french_half : dict string := [("a", "1"); ("b", "X")].
Definition with_notes : filesystem :=
  one_directory ["i18n"]
    [("notes.txt", Unreadable "to do"); ("fr.json", catalog french_half);
     ("en.json", catalog base_ab)].

(** A directory with the base and a British variant only. *)
Definition british_only : filesystem :=
  one_directory ["i18n"]
    [("en-GB.json", Unreadable "not JSON"); ("en.json", catalog base_ab)].


(** What [main] prints and returns for a list of errors. *)
Definition report (all_errors : list error) : list string * Z :=
  match all_errors with
  | [] => (["[i18n-check] ok"], 0%Z)
  | _ => ("[i18n-check] FAILED:"
          :: ((λ err, "  - " +:+ error_message err) <$> all_errors), 1%Z)
  end.

(** ** Outcomes and loops *)

Section Loops.
Context {A S : Type} (body : S → A → result S).

(** Two bodies that agree on the elements of the list run the same loop. *)
Lemma for_each_ext (body' : S → A → result S) (xs : list A) (s : S) :
  (∀ x s', x ∈ xs → body s' x = body' s' x) →
  for_each xs body s = for_each xs body' s.
Proof.
  revert s. induction xs as [|x xs IH]; intros s Hagree; simpl; [done|].
  rewrite <- (Hagree x s) by set_solver.
  destruct (body s x) as [s'|e]; simpl; [|done].
  apply IH. intros y t Hy. apply Hagree. set_solver.
Qed.

End Loops.

(** A loop whose body appends to a list: the body run from the empty list
    gives what each element adds. *)
Section AppendingLoops.
Context {A E : Type} (body : list E → A → result (list E)).
Hypothesis body_appends :
  ∀ acc x, body acc x = (λ added, acc ++ added) <$> body [] x.

Lemma for_each_appends_Return (xs : list A) (acc out : list E) :
  for_each xs body acc = Return out ↔
  ∃ added : list (list E),
    Forall2 (λ x a, body [] x = Return a) xs added ∧ out = acc ++ concat added.
Proof.
  revert acc. induction xs as [|x xs IH]; intros acc; simpl.
  - split.
    + intros [= <-]. exists []. split; [constructor|]. simpl. by rewrite app_nil_r.
    + intros (added & Hall & ->). inversion Hall; subst. simpl. by rewrite app_nil_r.
  - rewrite body_appends. destruct (body [] x) as [a|e] eqn:Hx; simpl.
    + rewrite IH. split.
      * intros (added & Hall & ->). exists (a :: added). split; [by constructor|].
        simpl. by rewrite app_assoc.
      * intros (added & Hall & ->). inversion Hall as [|? a' ? added' Ha Hrest]; subst.
        assert (a' = a) as -> by congruence.
        exists added'. split; [done|]. simpl. by rewrite app_assoc.
    + split; [discriminate|].
      intros (added & Hall & _). inversion Hall; subst. congruence.
Qed.

Lemma for_each_appends_Raise (xs : list A) (acc : list E) (e : exn) :
  for_each xs body acc = Raise e → ∃ x, x ∈ xs ∧ body [] x = Raise e.
Proof.
  revert acc. induction xs as [|x xs IH]; intros acc; simpl; [discriminate|].
  rewrite body_appends. destruct (body [] x) as [a|e'] eqn:Hx; simpl.
  - intros (y & Hy & Hr)%IH. exists y. split; [set_solver|done].
  - intros [= ->]. exists x. split; [set_solver|done].
Qed.

End AppendingLoops.

(** ** Paths and their order *)

Section Paths.
Implicit Types (p q r : Path) (n : string).

Lemma parent_joinpath p n : parent (joinpath p n) = p.
Proof. unfold parent, joinpath. apply removelast_last. Qed.

Lemma name_joinpath p n : name (joinpath p n) = n.
Proof. unfold name, joinpath. apply last_last. Qed.

Lemma joinpath_inj p n n' : joinpath p n = joinpath p n' → n = n'.
Proof. unfold joinpath. intros H%app_inv_head. by injection H. Qed.

Lemma joinpath_not_root p n : joinpath p n ≠ [].
Proof. unfold joinpath. by destruct p. Qed.

Lemma str_compare_refl n : String.compare n n = Eq.
Proof.
  induction n as [|c n IH]; simpl; [done|].
  unfold Ascii.compare. by rewrite N.compare_refl.
Qed.

Lemma str_compare_Lt_trans (a b c : string) :
  String.compare a b = Lt → String.compare b c = Lt → String.compare a c = Lt.
Proof.
  intros Hab Hbc.
  assert (String.le a c) as Hac.
  { transitivity b; unfold String.le, String.leb; [by rewrite Hab|by rewrite Hbc]. }
  unfold String.le, String.leb in Hac.
  destruct (String.compare a c) eqn:E; [|done|done].
  apply String.compare_eq_iff in E as ->.
  rewrite String.compare_antisym, Hbc in Hab. done.
Qed.

Lemma path_compare_eq p q : path_compare p q = Eq ↔ p = q.
Proof.
  revert q. induction p as [|a p IH]; intros [|b q]; simpl; try done.
  destruct (String.compare a b) eqn:E.
  - apply String.compare_eq_iff in E as ->. split.
    + intros H. apply IH in H. by subst.
    + intros [= ->]. by apply IH.
  - split; [done|]. intros [= -> _]. by rewrite str_compare_refl in E.
  - split; [done|]. intros [= -> _]. by rewrite str_compare_refl in E.
Qed.

Lemma path_compare_antisym p q : path_compare p q = CompOpp (path_compare q p).
Proof.
  revert q. induction p as [|a p IH]; intros [|b q]; simpl; try done.
  rewrite (String.compare_antisym b a).
  destruct (String.compare a b); simpl; auto.
Qed.

Lemma path_compare_Lt_trans p q r :
  path_compare p q = Lt → path_compare q r = Lt → path_compare p r = Lt.
Proof.
  revert q r. induction p as [|a p IH]; intros [|b q] [|c r]; simpl; try done.
  destruct (String.compare a b) eqn:Eab; [|intros _|done].
  - apply String.compare_eq_iff in Eab as ->.
    destruct (String.compare b c); [apply IH|done|done].
  - destruct (String.compare b c) eqn:Ebc; [|intros _|done].
    + apply String.compare_eq_iff in Ebc as ->. by rewrite Eab.
    + by rewrite (str_compare_Lt_trans a b c).
Qed.

#[global] Instance path_le_refl : Reflexive path_le.
Proof. intros p. unfold path_le. by rewrite (proj2 (path_compare_eq p p)). Qed.

#[global] Instance path_le_trans : Transitive path_le.
Proof.
  intros p q r. unfold path_le.
  destruct (path_compare p q) eqn:Epq; [|intros _|done].
  - by apply path_compare_eq in Epq as ->.
  - destruct (path_compare q r) eqn:Eqr; [|intros _|done].
    + apply path_compare_eq in Eqr as ->. by rewrite Epq.
    + by rewrite (path_compare_Lt_trans p q r).
Qed.

#[global] Instance path_le_antisym : AntiSymm (=) path_le.
Proof.
  intros p q. unfold path_le. rewrite (path_compare_antisym q p).
  destruct (path_compare p q) eqn:E; simpl; try done.
  intros _ _. by apply path_compare_eq.
Qed.

#[global] Instance path_le_total : Total path_le.
Proof.
  intros p q. unfold path_le. rewrite (path_compare_antisym q p).
  destruct (path_compare p q); simpl; auto.
Qed.

(** Two files of one directory compare as their names do. *)
Lemma path_compare_joinpath p (a b : string) :
  path_compare (joinpath p a) (joinpath p b) = String.compare a b.
Proof.
  unfold joinpath. induction p as [|c p IH]; simpl.
  - by destruct (String.compare a b).
  - by rewrite str_compare_refl.
Qed.

Lemma sorted_paths_perm (l : list Path) : sorted_paths l ≡ₚ l.
Proof. apply merge_sort_Permutation. Qed.

Lemma sorted_paths_sorted (l : list Path) : StronglySorted path_le (sorted_paths l).
Proof. apply StronglySorted_merge_sort; apply _. Qed.

(** [sorted] does not depend on the order of its argument. *)
Lemma sorted_paths_proper (l1 l2 : list Path) :
  l1 ≡ₚ l2 → sorted_paths l1 = sorted_paths l2.
Proof.
  intros Hperm. apply (StronglySorted_unique path_le); try apply sorted_paths_sorted.
  by rewrite !sorted_paths_perm.
Qed.

Lemma elem_of_sorted_paths (l : list Path) p : p ∈ sorted_paths l ↔ p ∈ l.
Proof. by rewrite sorted_paths_perm. Qed.

Lemma sorted_strs_length (l : list string) : length (sorted_strs l) = length l.
Proof. unfold sorted_strs. by rewrite merge_sort_Permutation. Qed.

Lemma sorted_strs_nil (l : list string) : sorted_strs l = [] ↔ l = [].
Proof.
  rewrite <- !length_zero_iff_nil. by rewrite sorted_strs_length.
Qed.

End Paths.

(** ** Dictionaries *)

Section Dicts.
Context {V : Type}.
Implicit Types (d : dict V) (k : string) (v : V).

Lemma dict_get_Some_elem d k v : dict_get d k = Some v → (k, v) ∈ d.
Proof.
  induction d as [|[k' v'] d IH]; csimpl; [done|].
  destruct (String.eqb_spec k k') as [->|Hne].
  - intros [= ->]. by left.
  - intros H. right. by apply IH.
Qed.

Lemma dict_get_elem_Some d k v : NoDup d.*1 → (k, v) ∈ d → dict_get d k = Some v.
Proof.
  induction d as [|[k' v'] d IH]; csimpl; [by intros _ ?%elem_of_nil|].
  intros [Hk' Hnd]%NoDup_cons [[= -> ->]|Hin]%elem_of_cons.
  - by rewrite String.eqb_refl.
  - destruct (String.eqb_spec k k') as [->|Hne]; [|by apply IH].
    destruct Hk'. apply list_elem_of_fmap. by exists (k', v).
Qed.

Lemma dict_get_is_Some d k : is_Some (dict_get d k) ↔ k ∈ d.*1.
Proof.
  induction d as [|[k' v'] d IH]; csimpl.
  - split; [by intros [? ?]|by intros ?%elem_of_nil].
  - destruct (String.eqb_spec k k') as [->|Hne].
    + split; [intros _; by left|by eexists].
    + rewrite IH, elem_of_cons. split; [by right|]. by intros [?|?].
Qed.

Lemma dict_get_None d k : dict_get d k = None ↔ k ∉ d.*1.
Proof. rewrite <- dict_get_is_Some, eq_None_not_Some. done. Qed.

Lemma elem_of_key_set d k : k ∈ key_set d ↔ k ∈ d.*1.
Proof. unfold key_set. by rewrite elem_of_list_to_set. Qed.

Lemma elements_key_set d : NoDup d.*1 → elements (key_set d) ≡ₚ d.*1.
Proof. intros Hnd. unfold key_set. by apply elements_list_to_set. Qed.

Lemma size_key_set d : NoDup d.*1 → size (key_set d) = length d.
Proof.
  intros Hnd. unfold size, set_size. csimpl.
  by rewrite elements_key_set, length_fmap.
Qed.

Lemma dict_set_keys d k v :
  (dict_set d k v).*1 = if bool_decide (k ∈ d.*1) then d.*1 else d.*1 ++ [k].
Proof.
  induction d as [|[k' v'] d IH]; csimpl; [done|].
  destruct (String.eqb_spec k k') as [->|Hne]; csimpl.
  - rewrite bool_decide_eq_true_2 by (by left). done.
  - rewrite IH. destruct (bool_decide_reflect (k ∈ d.*1)) as [Hin|Hnin].
    + rewrite bool_decide_eq_true_2 by (by right). done.
    + rewrite bool_decide_eq_false_2; [done|]. rewrite elem_of_cons. by intros [?|?].
Qed.

Lemma dict_set_NoDup d k v : NoDup d.*1 → NoDup (dict_set d k v).*1.
Proof.
  intros Hnd. rewrite dict_set_keys. case_bool_decide as Hin; [done|].
  apply NoDup_app. split_and!; [done| |apply NoDup_singleton].
  intros x Hx ->%list_elem_of_singleton. done.
Qed.

Lemma dict_of_pairs_NoDup (pairs : list (string * V)) :
  NoDup (dict_of_pairs pairs).*1.
Proof.
  unfold dict_of_pairs.
  assert (∀ acc : dict V, NoDup acc.*1 →
            NoDup (fold_left (λ d kv, dict_set d kv.1 kv.2) pairs acc).*1) as Hgen.
  { induction pairs as [|[k v] pairs IH]; intros acc Hacc; csimpl; [done|].
    apply IH. by apply dict_set_NoDup. }
  apply Hgen. constructor.
Qed.

End Dicts.

Section LoadJson.
Implicit Types (fs : filesystem) (raw : dict json) (p : Path).

Lemma non_string_nil raw :
  (filter (λ kv, is_str kv.2 = false) raw).*1 = [] ↔ all_strings raw.
Proof.
  unfold all_strings. induction raw as [|[k v] raw IH]; csimpl.
  - split; [constructor|done].
  - rewrite filter_cons. csimpl. destruct (is_str v) eqn:Hv.
    + rewrite decide_False by done. rewrite IH, Forall_cons.
      split; [by split|by intros [_ ?]].
    + rewrite decide_True by done. csimpl. split; [done|].
      intros [? _]%Forall_cons. csimpl in *. congruence.
Qed.

Lemma str_items_keys raw : all_strings raw → (str_items raw).*1 = raw.*1.
Proof.
  unfold str_items. induction 1 as [|[k v] raw Hv _ IH]; csimpl; [done|].
  destruct v; csimpl in *; try done. by rewrite IH.
Qed.

Lemma str_items_get raw k s :
  all_strings raw →
  dict_get (str_items raw) k = Some s ↔ dict_get raw k = Some (JString s).
Proof.
  unfold str_items. induction 1 as [|[k' v] raw Hv _ IH]; csimpl; [done|].
  destruct v; csimpl in *; try done.
  destruct (String.eqb k k'); [|done]. split; congruence.
Qed.

(** What it takes for [load_json] to return: the file holds an object whose
    values, after the later duplicates have replaced the earlier, are all
    strings. *)
Lemma load_json_Return fs p (d : dict string) :
  load_json fs p = Return d ↔
  ∃ members, lookup_file fs p = Some (Contents (JObject members))
             ∧ all_strings (dict_of_pairs members)
             ∧ d = str_items (dict_of_pairs members).
Proof.
  unfold load_json, open_and_load.
  destruct (lookup_file fs p) as [[text|[| | | | |members]]|];
    try (split; [discriminate|intros (? & [=] & _)]).
  pose proof (non_string_nil (dict_of_pairs members)) as Hns.
  destruct ((filter _ (dict_of_pairs members)).*1) as [|k ks].
  - split.
    + intros [= <-]. exists members. split_and!; [done|by apply Hns|done].
    + intros (? & [= <-] & _ & ->). done.
  - split; [discriminate|].
    intros (? & [= <-] & Hall & _). apply Hns in Hall. done.
Qed.

Lemma load_json_NoDup fs p (d : dict string) :
  load_json fs p = Return d → NoDup d.*1.
Proof.
  intros (members & _ & Hall & ->)%load_json_Return.
  rewrite str_items_keys by done. apply dict_of_pairs_NoDup.
Qed.

Lemma load_json_exists fs p (d : dict string) :
  load_json fs p = Return d → path_exists fs p = true.
Proof.
  intros (members & Hfile & _)%load_json_Return.
  unfold path_exists. rewrite Hfile. by apply bool_decide_eq_true_2.
Qed.

(** [load_json] raises nothing but [SystemExit]. *)
Lemma load_json_Raise fs p e :
  load_json fs p = Raise e → ∃ msg, e = SystemExit msg.
Proof.
  unfold load_json. destruct (open_and_load fs p) as [exc|doc].
  - intros [= <-]. by eexists.
  - destruct doc; try (intros [= <-]; by eexists).
    destruct ((filter _ _).*1); [discriminate|]. intros [= <-]. by eexists.
Qed.

Lemma lookup_file_joinpath fs p n :
  lookup_file fs (joinpath p n) = fs p ≫= λ d, find_entry d n.
Proof.
  unfold lookup_file. rewrite parent_joinpath, name_joinpath.
  pose proof (joinpath_not_root p n). by destruct (joinpath p n).
Qed.

End LoadJson.

(** ** The check of one locale file *)

Section CountSame.
Implicit Types (base data : dict string) (keys : list string).

Lemma count_same_Return base data keys :
  (∀ k, k ∈ keys → k ∈ data.*1 ∧ k ∈ base.*1) →
  count_same base data keys =
    Return (length (filter (λ k, dict_get data k = dict_get base k) keys)).
Proof.
  induction keys as [|k keys IH]; intros Hin; [done|].
  destruct (Hin k) as [[d Hd]%dict_get_is_Some [b Hb]%dict_get_is_Some]; [by left|].
  cbn [count_same]. unfold getitem. rewrite Hd, Hb. simpl.
  rewrite IH by (intros k' Hk'; apply Hin; by right). simpl.
  rewrite filter_cons, Hd, Hb.
  destruct (String.eqb_spec d b) as [->|Hne].
  - by rewrite decide_True.
  - rewrite decide_False; [done|congruence].
Qed.

Lemma same_values_keys base data :
  NoDup base.*1 →
  length (filter (λ k, dict_get data k = dict_get base k) base.*1)
  = same_values base data.
Proof.
  unfold same_values. intros Hnd.
  assert (∀ l : dict string, l ⊆ base →
    length (filter (λ k, dict_get data k = dict_get base k) l.*1)
    = length (filter (λ kv, dict_get data kv.1 = Some kv.2) l)) as Hgen.
  { induction l as [|[k v] l IH]; intros Hsub; [done|].
    assert (dict_get base k = Some v) as Hk.
    { apply dict_get_elem_Some; [done|]. apply Hsub. by left. }
    csimpl. rewrite !filter_cons. csimpl. rewrite Hk.
    assert (l ⊆ base) as Hl by (intros x Hx; apply Hsub; by right).
    destruct (decide (dict_get data k = Some v)); simpl; by rewrite IH. }
  by apply Hgen.
Qed.

(** On key parity the sum over the key set is the number of base items the
    locale repeats, and no [KeyError] is raised. *)
Lemma count_same_parity base data :
  NoDup base.*1 → key_set data = key_set base →
  count_same base data (elements (key_set base)) = Return (same_values base data).
Proof.
  intros Hnd Hkeys. rewrite count_same_Return.
  - f_equal. rewrite <- same_values_keys by done.
    by rewrite (elements_key_set base Hnd).
  - intros k Hk%elem_of_elements. split; [|by apply elem_of_key_set].
    apply elem_of_key_set. by rewrite Hkeys.
Qed.

Lemma same_values_le base data : same_values base data ≤ length base.
Proof. apply length_filter. Qed.

(** [same] reaches the total exactly when the locale repeats every value. *)
Lemma same_values_total base data :
  same_values base data = length base ↔
  ∀ k v, (k, v) ∈ base → dict_get data k = Some v.
Proof.
  unfold same_values. split.
  - intros Hlen k v Hin. destruct (decide (dict_get data k = Some v)) as [|Hne]; [done|].
    pose proof (length_filter_lt (λ kv, dict_get data kv.1 = Some kv.2) base (k, v) Hin Hne).
    lia.
  - intros Hall. f_equal. induction base as [|[k v] base IH]; [done|].
    rewrite filter_cons_True by (apply Hall; by left).
    f_equal. apply IH. intros k' v' Hin. apply Hall. by right.
Qed.

End CountSame.

Section LocaleFile.
Context (fs : filesystem) (base : dict string) (max_same_ratio : float).
Implicit Types (f : Path) (data : dict string) (errors added : list error).

(** The loop body as [validate_catalog_dir] runs it, from no errors. *)
Let check := check_locale_file fs base (key_set base) (size (key_set base))
               max_same_ratio.

Lemma check_locale_file_appends errors f :
  check errors f = (λ added, errors ++ added) <$> check [] f.
Proof.
  unfold check, check_locale_file.
  destruct (startswith (stem f) "en"); csimpl; [by rewrite app_nil_r|].
  destruct (load_json fs f) as [data|e]; csimpl; [|done].
  destruct (_ || _); csimpl; [done|].
  destruct (count_same _ _ _) as [same|e]; csimpl; [|done].
  destruct (same =? _); csimpl; [done|].
  destruct (truediv _ _) as [ratio|e]; csimpl; [|done].
  destruct (float_gt _ _); csimpl; [done|by rewrite app_nil_r].
Qed.

(** A file of the base language is skipped before it is opened. *)
Lemma check_skips_base_language errors f :
  startswith (stem f) "en" = true → check errors f = Return errors.
Proof. intros Hen. unfold check, check_locale_file. by rewrite Hen. Qed.

Lemma check_load_fails errors f e :
  startswith (stem f) "en" = false → load_json fs f = Raise e →
  check errors f = Raise e.
Proof. intros Hen Hload. unfold check, check_locale_file. by rewrite Hen, Hload. Qed.

Lemma missing_truthy data :
  bool_decide (sorted_strs (elements (key_set base ∖ key_set data)) ≠ [])
  = bool_decide (missing_count base data ≠ 0).
Proof.
  apply bool_decide_ext. unfold missing_count.
  rewrite sorted_strs_nil, <- length_zero_iff_nil. done.
Qed.

Lemma extra_truthy data :
  bool_decide (sorted_strs (elements (key_set data ∖ key_set base)) ≠ [])
  = bool_decide (extra_count base data ≠ 0).
Proof.
  apply bool_decide_ext. unfold extra_count.
  rewrite sorted_strs_nil, <- length_zero_iff_nil. done.
Qed.

(** Key parity is both counts at zero. *)
Lemma key_parity data :
  key_set data = key_set base ↔ missing_count base data = 0 ∧ extra_count base data = 0.
Proof.
  unfold missing_count, extra_count. rewrite !size_empty_iff. split.
  - intros ->. split; set_solver.
  - intros [Hmissing Hextra]. apply set_eq. intros k. split; intros Hk.
    + destruct (decide (k ∈ key_set base)) as [|Hnot]; [done|].
      assert (k ∈ key_set data ∖ key_set base) as Hin by set_solver.
      rewrite Hextra in Hin. set_solver.
    + destruct (decide (k ∈ key_set data)) as [|Hnot]; [done|].
      assert (k ∈ key_set base ∖ key_set data) as Hin by set_solver.
      rewrite Hmissing in Hin. set_solver.
Qed.

Lemma check_key_mismatch f data :
  startswith (stem f) "en" = false → load_json fs f = Return data →
  key_set data ≠ key_set base →
  check [] f = Return [KeyMismatch f (mismatch_details base data)].
Proof.
  intros Hen Hload Hkeys. unfold check, check_locale_file.
  rewrite Hen, Hload. csimpl.
  rewrite !missing_truthy, !extra_truthy, !sorted_strs_length.
  change (length (elements (key_set base ∖ key_set data)))
    with (missing_count base data).
  change (length (elements (key_set data ∖ key_set base)))
    with (extra_count base data).
  rewrite key_parity in Hkeys. unfold mismatch_details.
  destruct (decide (missing_count base data = 0)) as [Hm|Hm];
    destruct (decide (extra_count base data = 0)) as [Hx|Hx];
    repeat case_bool_decide; try done; exfalso; by apply Hkeys.
Qed.

Lemma check_key_parity f data :
  NoDup base.*1 → base ≠ [] →
  startswith (stem f) "en" = false → load_json fs f = Return data →
  key_set data = key_set base →
  ∃ ratio, int_truediv (same_values base data) (length base) = Some ratio ∧
  check [] f = Return
    (if decide (same_values base data = length base)
     then [FullClone f (length base) (length base)]
     else if float_gt ratio max_same_ratio
          then [TooManySame f (same_values base data) (length base) ratio
                  max_same_ratio]
          else []).
Proof.
  intros Hnd Hne Hen Hload Hkeys.
  assert (∃ ratio, int_truediv (same_values base data) (length base) = Some ratio)
    as [ratio Hratio].
  { unfold int_truediv. destruct base; [done|]. simpl length.
    destruct (Z.of_nat (same_values _ _)); rewrite Nat2Z.inj_succ;
      destruct (Z.succ _) eqn:E; try lia; by eexists. }
  exists ratio. split; [done|].
  unfold check, check_locale_file. rewrite Hen, Hload. csimpl.
  rewrite !missing_truthy, !extra_truthy.
  apply key_parity in Hkeys as Hzero. destruct Hzero as [-> ->].
  rewrite !bool_decide_eq_false_2 by (intros ?; congruence). csimpl.
  rewrite count_same_parity by done. csimpl.
  rewrite size_key_set by done.
  destruct (Nat.eqb_spec (same_values base data) (length base)) as [Heq|Hneq].
  - rewrite decide_True by done. by rewrite Heq.
  - rewrite decide_False by done. unfold truediv. rewrite Hratio. csimpl.
    by destruct (float_gt ratio max_same_ratio).
Qed.

(** A check that raises raises what [load_json] raised on that file: on
    key parity no item is missing, and the base has a key to divide by. *)
Lemma check_Raise f e :
  NoDup base.*1 → base ≠ [] → check [] f = Raise e →
  startswith (stem f) "en" = false ∧ load_json fs f = Raise e.
Proof.
  intros Hnd Hne Hcheck.
  destruct (startswith (stem f) "en") eqn:Hen.
  { rewrite check_skips_base_language in Hcheck by done. done. }
  split; [done|].
  destruct (load_json fs f) as [data|e'] eqn:Hload.
  - destruct (decide (key_set data = key_set base)) as [Hkeys|Hkeys].
    + destruct (check_key_parity f data) as (ratio & _ & Hret); try done.
      rewrite Hret in Hcheck. done.
    + rewrite (check_key_mismatch f data) in Hcheck by done. done.
  - rewrite (check_load_fails [] f e') in Hcheck by done. congruence.
Qed.

(** Every error of a check is reported against the checked file, is an
    error of the comparison, and there is at most one. *)
Lemma check_Return f added :
  check [] f = Return added →
  Forall (λ e, error_path e = f ∧ is_locale_error e = true) added
  ∧ length added ≤ 1.
Proof.
  assert (∀ l : list error,
            Forall (λ e, error_path e = f ∧ is_locale_error e = true) l →
            length l ≤ 1 → Return l = Return added →
            Forall (λ e, error_path e = f ∧ is_locale_error e = true) added
            ∧ length added ≤ 1) as Hone.
  { intros l Hall Hlen [= <-]. done. }
  unfold check, check_locale_file.
  destruct (startswith (stem f) "en"); csimpl; [apply Hone; [constructor|simpl; lia]|].
  destruct (load_json fs f) as [data|e]; csimpl; [|done].
  destruct (_ || _); csimpl; [apply Hone; [by repeat constructor|simpl; lia]|].
  destruct (count_same _ _ _) as [same|e]; csimpl; [|done].
  destruct (same =? _); csimpl; [apply Hone; [by repeat constructor|simpl; lia]|].
  destruct (truediv _ _) as [ratio|e]; csimpl; [|done].
  destruct (float_gt _ _); csimpl; apply Hone;
    try (by repeat constructor); simpl; lia.
Qed.

End LocaleFile.
(** ** The check of a directory *)

Section ErrorsFor.
Implicit Types (f g : Path) (errs : list error).

Lemma errors_for_app f errs1 errs2 :
  errors_for f (errs1 ++ errs2) = errors_for f errs1 ++ errors_for f errs2.
Proof. apply filter_app. Qed.

Lemma errors_for_same f errs :
  Forall (λ e, error_path e = f) errs → errors_for f errs = errs.
Proof.
  unfold errors_for. induction 1 as [|e errs He _ IH]; [done|].
  by rewrite filter_cons_True, IH.
Qed.

Lemma errors_for_other f g errs :
  f ≠ g → Forall (λ e, error_path e = g) errs → errors_for f errs = [].
Proof.
  unfold errors_for. intros Hne. induction 1 as [|e errs He _ IH]; [done|].
  rewrite filter_cons_False by congruence. done.
Qed.

Lemma elem_of_errors_for f errs e :
  e ∈ errors_for f errs ↔ error_path e = f ∧ e ∈ errs.
Proof. unfold errors_for. by rewrite list_elem_of_filter. Qed.

End ErrorsFor.

Section Directory.
Context (fs : filesystem) (path : Path) (max_same_ratio : float).
Context (base : dict string).
Implicit Types (f g : Path) (n : string) (errs added : list error).

Let base_path := joinpath path "en.json".
Let check := check_locale_file fs base (key_set base) (size (key_set base))
               max_same_ratio.

Hypothesis base_loads : load_json fs base_path = Return base.
Hypothesis base_has_keys : base ≠ [].

Lemma base_keys_NoDup : NoDup base.*1.
Proof using base_loads. by apply (load_json_NoDup fs base_path). Qed.

(** With a base that loads and has keys, [validate_catalog_dir] is the loop
    over the sorted files. *)
Lemma validate_catalog_dir_loop :
  validate_catalog_dir fs path max_same_ratio
  = for_each (sorted_paths (glob_json fs path)) check [].
Proof using base_loads base_has_keys.
  unfold validate_catalog_dir. fold base_path.
  rewrite (load_json_exists fs base_path base), base_loads by done. csimpl.
  rewrite size_key_set by apply base_keys_NoDup.
  destruct (Nat.eqb_spec (length base) 0) as [Hzero|_].
  { by apply length_zero_iff_nil in Hzero. }
  unfold check. by rewrite size_key_set by apply base_keys_NoDup.
Qed.

Lemma added_errors_for (files : list Path) (added : list (list error)) g :
  NoDup files → Forall2 (λ f a, check [] f = Return a) files added →
  errors_for g (concat added)
  = match check [] g with
    | Return a => if decide (g ∈ files) then a else []
    | Raise _ => []
    end.
Proof using Type.
  intros Hnd Hall. induction Hall as [|f a files added Hf Hall IH].
  - csimpl. by destruct (check [] g).
  - change (concat (a :: added)) with (a ++ concat added).
    apply NoDup_cons in Hnd as [Hfresh Hnd]. rewrite errors_for_app, IH by done.
    pose proof (check_Return fs base max_same_ratio f a Hf) as [Hpaths _].
    assert (Forall (λ e, error_path e = f) a) as Hpath.
    { eapply Forall_impl; [exact Hpaths|]. by intros e [? _]. }
    destruct (decide (g = f)) as [->|Hne].
    + rewrite errors_for_same by done. fold check. rewrite Hf.
      rewrite (decide_False (P := f ∈ files)) by done.
      rewrite (decide_True (P := f ∈ f :: files)) by (by left).
      by rewrite app_nil_r.
    + rewrite (errors_for_other g f) by done. csimpl.
      destruct (check [] g); [|done].
      destruct (decide (g ∈ files)) as [Hin|Hnin].
      * rewrite (decide_True (P := g ∈ f :: files)) by (by right). done.
      * rewrite (decide_False (P := g ∈ f :: files)); [done|].
        rewrite elem_of_cons. by intros [?|?].
Qed.

(** When the directory's check returns, the check of every file returned. *)
Lemma validate_Return_checked errs g :
  validate_catalog_dir fs path max_same_ratio = Return errs →
  g ∈ glob_json fs path → ∃ added, check [] g = Return added.
Proof using base_loads base_has_keys.
  intros Hrun Hg. rewrite validate_catalog_dir_loop in Hrun.
  apply for_each_appends_Return in Hrun as (added & Hall & ->);
    [|apply check_locale_file_appends].
  rewrite <- elem_of_sorted_paths in Hg.
  apply list_elem_of_lookup in Hg as [i Hi].
  destruct (Forall2_lookup_l _ _ _ i g Hall Hi) as (a & _ & Ha). by exists a.
Qed.

(** When the directory's check returns, every file's own check returned, and
    the errors against the file are the errors of its check: the loop went
    through all of them. *)
Lemma validate_Return_files errs g :
  NoDup (glob_json fs path) →
  validate_catalog_dir fs path max_same_ratio = Return errs →
  g ∈ glob_json fs path → check [] g = Return (errors_for g errs).
Proof using base_loads base_has_keys.
  intros Hnd Hrun Hg. rewrite validate_catalog_dir_loop in Hrun.
  apply for_each_appends_Return in Hrun as (added & Hall & ->);
    [|apply check_locale_file_appends].
  simpl. assert (g ∈ sorted_paths (glob_json fs path)) as Hin
    by by apply elem_of_sorted_paths.
  rewrite (added_errors_for (sorted_paths (glob_json fs path)));
    [|by rewrite sorted_paths_perm|done].
  apply list_elem_of_lookup in Hin as Hlookup. destruct Hlookup as [i Hi].
  destruct (Forall2_lookup_l _ _ _ i g Hall Hi) as (a & _ & Ha).
  fold check in Ha |- *. rewrite Ha. by rewrite decide_True.
Qed.

(** When the directory's check raises, a locale file failed to load, and
    what is raised is what [load_json] raised on it. *)
Lemma validate_Raise_file e :
  validate_catalog_dir fs path max_same_ratio = Raise e →
  ∃ g, g ∈ glob_json fs path ∧ startswith (stem g) "en" = false
       ∧ load_json fs g = Raise e.
Proof using base_loads base_has_keys.
  rewrite validate_catalog_dir_loop. intros Hrun.
  apply for_each_appends_Raise in Hrun as (g & Hg & Hraise);
    [|apply check_locale_file_appends].
  apply check_Raise in Hraise as [Hen Hload];
    [|apply base_keys_NoDup|apply base_has_keys].
  exists g. split; [by apply elem_of_sorted_paths|done].
Qed.

(** The directory's check returns as soon as every locale file loads. *)
Lemma validate_returns :
  (∀ g, g ∈ glob_json fs path → startswith (stem g) "en" = false →
        ∃ data, load_json fs g = Return data) →
  ∃ errs, validate_catalog_dir fs path max_same_ratio = Return errs.
Proof using base_loads base_has_keys.
  intros Hloads.
  destruct (validate_catalog_dir fs path max_same_ratio) as [errs|e] eqn:Hrun;
    [by exists errs|].
  apply validate_Raise_file in Hrun as (g & Hg & Hen & Hraise).
  destruct (Hloads g Hg Hen) as [data Hdata]. congruence.
Qed.

(** What the directory's check says of one file whose own check returns
    [added]: these are the errors against it, unless the run was cut short by
    another file that failed to load. *)
Lemma validate_file_report g added :
  NoDup (glob_json fs path) → g ∈ glob_json fs path →
  check [] g = Return added →
  match validate_catalog_dir fs path max_same_ratio with
  | Return errs => errors_for g errs = added
  | Raise e => ∃ g', g' ∈ glob_json fs path ∧ g' ≠ g ∧ load_json fs g' = Raise e
  end.
Proof using base_loads base_has_keys.
  intros Hnd Hg Hcheck.
  destruct (validate_catalog_dir fs path max_same_ratio) as [errs|e] eqn:Hrun.
  - pose proof (validate_Return_files errs g Hnd Hrun Hg) as Hfile.
    fold check in Hfile. congruence.
  - apply validate_Raise_file in Hrun as (g' & Hg' & Hen & Hraise).
    exists g'. split_and!; [done| |done].
    intros ->. unfold check in Hcheck.
    rewrite (check_load_fails fs base max_same_ratio [] g e) in Hcheck by done.
    done.
Qed.

(** The errors come in the order of the sorted files, at most one a file. *)
Lemma validate_Return_sorted errs :
  validate_catalog_dir fs path max_same_ratio = Return errs →
  (error_path <$> errs) `sublist_of` sorted_paths (glob_json fs path).
Proof using base_loads base_has_keys.
  rewrite validate_catalog_dir_loop. intros Hrun.
  apply for_each_appends_Return in Hrun as (added & Hall & ->);
    [|apply check_locale_file_appends].
  simpl. induction Hall as [|f a files added' Hf Hall IH]; [done|].
  change (concat (a :: added')) with (a ++ concat added').
  rewrite fmap_app.
  apply (check_Return fs base max_same_ratio) in Hf as [Hpaths Hlen].
  destruct a as [|e [|e' a]]; [| |simpl in Hlen; lia].
  - by apply sublist_cons.
  - apply Forall_cons in Hpaths as [[<- _] _]. by apply sublist_skip.
Qed.

End Directory.


Section Glob.
Context (fs : filesystem) (path : Path) (dir : directory).
Hypothesis path_is_dir : fs path = Some dir.

Lemma glob_json_elem f :
  f ∈ glob_json fs path ↔
  ∃ n, f = joinpath path n ∧ n ∈ dir.*1 ∧ endswith n ".json" = true.
Proof using path_is_dir.
  unfold glob_json. rewrite path_is_dir, list_elem_of_fmap.
  split; intros (n & -> & Hn); exists n; (split; [done|]).
  - apply list_elem_of_filter in Hn as [? ?]. done.
  - apply list_elem_of_filter. by destruct Hn.
Qed.

Lemma glob_json_NoDup : NoDup dir.*1 → NoDup (glob_json fs path).
Proof using path_is_dir.
  intros Hnd. unfold glob_json. rewrite path_is_dir.
  apply NoDup_fmap_2_strong; [|by apply NoDup_filter].
  intros n n' _ _. apply joinpath_inj.
Qed.

Lemma lookup_file_entry n :
  lookup_file fs (joinpath path n) = find_entry dir n.
Proof using path_is_dir. by rewrite lookup_file_joinpath, path_is_dir. Qed.

(** A file that loads is an entry of its directory. *)
Lemma load_json_entry n (data : dict string) :
  load_json fs (joinpath path n) = Return data → n ∈ dir.*1.
Proof using path_is_dir.
  intros (members & Hfile & _)%load_json_Return.
  rewrite lookup_file_entry in Hfile. apply dict_get_is_Some.
  unfold find_entry in Hfile. by rewrite Hfile.
Qed.

End Glob.

(** The two early returns of [validate_catalog_dir]. *)
Lemma validate_missing_base (fs : filesystem) (path : Path) (ratio : float) :
  path_exists fs (joinpath path "en.json") = false →
  validate_catalog_dir fs path ratio = Return [MissingBase (joinpath path "en.json")].
Proof. intros Hbase. unfold validate_catalog_dir. by rewrite Hbase. Qed.

Lemma validate_base_no_keys (fs : filesystem) (path : Path) (ratio : float) :
  load_json fs (joinpath path "en.json") = Return [] →
  validate_catalog_dir fs path ratio = Return [BaseNoKeys (joinpath path "en.json")].
Proof.
  intros Hbase. unfold validate_catalog_dir.
  by rewrite (load_json_exists _ _ _ Hbase), Hbase.
Qed.

(** [validate_catalog_dir] raises nothing but [SystemExit]: no [KeyError],
    no [ZeroDivisionError]. *)
Lemma validate_Raise_exit (fs : filesystem) (path : Path) (ratio : float) (e : exn) :
  validate_catalog_dir fs path ratio = Raise e → ∃ msg, e = SystemExit msg.
Proof.
  intros Hrun.
  destruct (load_json fs (joinpath path "en.json")) as [base|e'] eqn:Hbase.
  - destruct (decide (base = [])) as [->|Hkeys].
    + by rewrite validate_base_no_keys in Hrun.
    + apply (validate_Raise_file fs path ratio base Hbase Hkeys) in Hrun
        as (g & _ & _ & Hload).
      by apply load_json_Raise in Hload.
  - unfold validate_catalog_dir in Hrun. rewrite Hbase in Hrun.
    destruct (path_exists fs _); [|done]. injection Hrun as <-.
    by apply load_json_Raise in Hbase.
Qed.

(** ** The properties of the specification *)

(** *** The base catalog *)

(** C5. Base-catalog stop conditions. When the base catalog file is absent,
    the check of the directory returns the one error "missing base catalog";
    when the base catalog loads with no key, it returns the one error "base
    catalog has no keys". Both hold whatever else the directory holds, a
    locale file that could not be loaded included: no locale file is
    opened. *)
Theorem base_catalog_stop_conditions (fs : filesystem) (path : Path)
    (max_same_ratio : float) :
  (path_exists fs (joinpath path "en.json") = false →
   validate_catalog_dir fs path max_same_ratio
   = Return [MissingBase (joinpath path "en.json")])
  ∧ (load_json fs (joinpath path "en.json") = Return [] →
     validate_catalog_dir fs path max_same_ratio
     = Return [BaseNoKeys (joinpath path "en.json")]).
Proof.
  split; intros Hbase; unfold validate_catalog_dir.
  - (* [base_path.exists()] is false: the first [return]. *)
    by rewrite Hbase.
  - (* The base exists, since it loads; [key_total] is 0: the second. *)
    by rewrite (load_json_exists _ _ _ Hbase), Hbase.
Qed.

Lemma base_catalog_stop_conditions_witness :
  validate_catalog_dir
    (one_directory ["i18n"] [("fr.json", Unreadable "not JSON")]) ["i18n"] half
  = Return [MissingBase ["i18n"; "en.json"]]
  ∧ validate_catalog_dir
      (one_directory ["i18n"]
         [("fr.json", Unreadable "not JSON"); ("en.json", catalog [])])
      ["i18n"] half
    = Return [BaseNoKeys ["i18n"; "en.json"]].
Proof.
  split.
  - apply (proj1 (base_catalog_stop_conditions _ ["i18n"] half)).
    vm_compute. reflexivity.
  - apply (proj2 (base_catalog_stop_conditions _ ["i18n"] half)).
    vm_compute. reflexivity.
Defined.

(** *** [parse_ratio], case by case *)

Section ParseRatio.
Context (env : environ) (env_name : string) (default : float).

Lemma parse_ratio_absent :
  getenv env env_name = None → parse_ratio env env_name default = Return default.
Proof. intros Habsent. unfold parse_ratio. by rewrite Habsent. Qed.

Lemma parse_ratio_blank raw :
  getenv env env_name = Some raw → strip raw = "" →
  parse_ratio env env_name default = Return default.
Proof. intros Hraw Hblank. unfold parse_ratio. by rewrite Hraw, Hblank. Qed.

Lemma parse_ratio_not_a_float raw :
  getenv env env_name = Some raw → strip raw ≠ "" → float_of_string raw = None →
  parse_ratio env env_name default = Raise (SystemExit (MustBeFloat env_name raw)).
Proof.
  intros Hraw Hblank Hfloat. unfold parse_ratio. rewrite Hraw, Hfloat.
  by destruct (String.eqb_spec (strip raw) "").
Qed.

Lemma parse_ratio_out_of_range raw value :
  getenv env env_name = Some raw → strip raw ≠ "" →
  float_of_string raw = Some value →
  float_lt value float_zero = true ∨ float_gt value float_one = true →
  parse_ratio env env_name default
  = Raise (SystemExit (MustBeInRange env_name value)).
Proof.
  intros Hraw Hblank Hfloat Hrange. unfold parse_ratio. rewrite Hraw, Hfloat.
  destruct (String.eqb_spec (strip raw) "") as [|_]; [done|].
  by destruct Hrange as [-> | ->]; rewrite ?orb_true_r.
Qed.

(** A threshold that [parse_ratio] returns is the default, or the parsed
    value, which is then neither below 0.0 nor above 1.0. *)
Lemma parse_ratio_Return value :
  parse_ratio env env_name default = Return value →
  value = default
  ∨ (∃ raw, getenv env env_name = Some raw ∧ float_of_string raw = Some value)
    ∧ float_lt value float_zero = false ∧ float_gt value float_one = false.
Proof.
  unfold parse_ratio. destruct (getenv env env_name) as [raw|]; [|intros [= <-]; by left].
  destruct (String.eqb (strip raw) ""); [intros [= <-]; by left|].
  destruct (float_of_string raw) as [v|] eqn:Hfloat; [|done].
  destruct (float_lt v float_zero) eqn:Hlow; [done|].
  destruct (float_gt v float_one) eqn:Hhigh; [done|].
  intros [= <-]. right. split; [by exists raw|done].
Qed.

Lemma parse_ratio_Raise e :
  parse_ratio env env_name default = Raise e → ∃ msg, e = SystemExit msg.
Proof.
  unfold parse_ratio. destruct (getenv env env_name) as [raw|]; [|done].
  destruct (String.eqb (strip raw) ""); [done|].
  destruct (float_of_string raw) as [v|]; [|intros [= <-]; by eexists].
  destruct (_ || _); [intros [= <-]; by eexists|done].
Qed.

End ParseRatio.

(** *** The run *)

Section Main.
Context (env : environ) (fs : filesystem) (script : Path).

Let cli := parse_ratio env "I18N_MAX_SAME_RATIO_OPERATOR_CLI" default_cli.
Let wizard := parse_ratio env "I18N_MAX_SAME_RATIO_OPERATOR_WIZARD" default_wizard.

(** [main], step by step: the two thresholds, the two directories, the
    report. *)
Lemma main_steps :
  main env fs script =
    cli_ratio ← cli;
    wizard_ratio ← wizard;
    cli_errors ← validate_catalog_dir fs (cli_dir script) cli_ratio;
    wizard_errors ← validate_catalog_dir fs (wizard_dir script) wizard_ratio;
    Return (report (cli_errors ++ wizard_errors)).
Proof.
  unfold main. fold cli wizard.
  destruct cli as [cli_ratio|e]; csimpl; [|done].
  destruct wizard as [wizard_ratio|e]; csimpl; [|done].
  fold (cli_dir script) (wizard_dir script).
  destruct (validate_catalog_dir fs (cli_dir script) cli_ratio)
    as [cli_errors|e]; csimpl; [|done].
  destruct (validate_catalog_dir fs (wizard_dir script) wizard_ratio)
    as [wizard_errors|e]; csimpl; [|done].
  by destruct (cli_errors ++ wizard_errors).
Qed.

Lemma report_status (all_errors : list error) :
  ((report all_errors).2 = 0%Z ↔ all_errors = [])
  ∧ ((report all_errors).2 = 1%Z ↔ all_errors ≠ []).
Proof. destruct all_errors; simpl; split; split; done. Qed.

End Main.

(** C7. Overall pass/fail. When [main] returns, both thresholds were resolved
    and both directories checked, the command-line one first; the errors of
    the two are concatenated in that order; the status is 0 exactly when the
    concatenation is empty, and then a single confirmation line is printed;
    otherwise the status is 1 and the output is the header line followed by
    one indented line per error, in the order of the concatenation. When
    [main] raises, it raises [SystemExit], and one of these four steps raised
    it, the later ones only after the earlier ones returned. *)
Theorem main_pass_fail (env : environ) (fs : filesystem) (script : Path) :
  match main env fs script with
  | Return (out, status) =>
      ∃ cli_ratio wizard_ratio cli_errors wizard_errors,
        parse_ratio env "I18N_MAX_SAME_RATIO_OPERATOR_CLI" default_cli
          = Return cli_ratio
        ∧ parse_ratio env "I18N_MAX_SAME_RATIO_OPERATOR_WIZARD" default_wizard
          = Return wizard_ratio
        ∧ validate_catalog_dir fs (cli_dir script) cli_ratio = Return cli_errors
        ∧ validate_catalog_dir fs (wizard_dir script) wizard_ratio
          = Return wizard_errors
        ∧ (status = 0%Z ↔ cli_errors ++ wizard_errors = [])
        ∧ (status = 1%Z ↔ cli_errors ++ wizard_errors ≠ [])
        ∧ (status = 0%Z → out = ["[i18n-check] ok"])
        ∧ (status = 1%Z →
           out = "[i18n-check] FAILED:"
                 :: ((λ err, "  - " +:+ error_message err)
                       <$> cli_errors ++ wizard_errors))
  | Raise e =>
      (∃ msg, e = SystemExit msg)
      ∧ (parse_ratio env "I18N_MAX_SAME_RATIO_OPERATOR_CLI" default_cli = Raise e
      ∨ ∃ cli_ratio,
          parse_ratio env "I18N_MAX_SAME_RATIO_OPERATOR_CLI" default_cli
            = Return cli_ratio
          ∧ (parse_ratio env "I18N_MAX_SAME_RATIO_OPERATOR_WIZARD" default_wizard
               = Raise e
             ∨ ∃ wizard_ratio,
                 parse_ratio env "I18N_MAX_SAME_RATIO_OPERATOR_WIZARD"
                   default_wizard = Return wizard_ratio
                 ∧ (validate_catalog_dir fs (cli_dir script) cli_ratio = Raise e
                    ∨ ∃ cli_errors,
                        validate_catalog_dir fs (cli_dir script) cli_ratio
                          = Return cli_errors
                        ∧ validate_catalog_dir fs (wizard_dir script)
                            wizard_ratio = Raise e)))
  end.
Proof.
  rewrite main_steps.
  destruct (parse_ratio env "I18N_MAX_SAME_RATIO_OPERATOR_CLI" default_cli)
    as [cli_ratio|e] eqn:Hcli_ratio; csimpl;
    [|split; [by apply parse_ratio_Raise in Hcli_ratio|by left]].
  destruct (parse_ratio env "I18N_MAX_SAME_RATIO_OPERATOR_WIZARD" default_wizard)
    as [wizard_ratio|e] eqn:Hwizard_ratio; csimpl;
    [|split; [by apply parse_ratio_Raise in Hwizard_ratio
             |right; exists cli_ratio; by auto]].
  destruct (validate_catalog_dir fs (cli_dir script) cli_ratio)
    as [cli_errors|e] eqn:Hcli; csimpl;
    [|split; [by apply validate_Raise_exit in Hcli
             |right; exists cli_ratio; split; [done|]; right; exists wizard_ratio;
              by auto]].
  destruct (validate_catalog_dir fs (wizard_dir script) wizard_ratio)
    as [wizard_errors|e] eqn:Hwizard; csimpl.
  - destruct (report (cli_errors ++ wizard_errors)) as [out status] eqn:Hreport.
    exists cli_ratio, wizard_ratio, cli_errors, wizard_errors.
    pose proof (report_status (cli_errors ++ wizard_errors)) as [Hzero Hone].
    rewrite Hreport in Hzero, Hone. simpl in Hzero, Hone.
    split_and!; try done.
    + intros Hstatus. apply Hzero in Hstatus. rewrite Hstatus in Hreport.
      by injection Hreport as <- _.
    + intros Hstatus. apply Hone in Hstatus.
      destruct (cli_errors ++ wizard_errors); [done|]. by injection Hreport as <- _.
  - split; [by apply validate_Raise_exit in Hwizard|].
    right. exists cli_ratio. split; [done|]. right. exists wizard_ratio.
    split; [done|]. right. by exists cli_errors.
Qed.

(** [main] raises nothing but [SystemExit]. *)
Lemma main_Raise_exit (env : environ) (fs : filesystem) (script : Path) (e : exn) :
  main env fs script = Raise e → ∃ msg, e = SystemExit msg.
Proof.
  rewrite main_steps.
  destruct (parse_ratio env _ default_cli) as [cli_ratio|e1] eqn:H1; csimpl;
    [|intros [= <-]; by apply parse_ratio_Raise in H1].
  destruct (parse_ratio env _ default_wizard) as [wizard_ratio|e2] eqn:H2; csimpl;
    [|intros [= <-]; by apply parse_ratio_Raise in H2].
  destruct (validate_catalog_dir fs (cli_dir script) cli_ratio)
    as [cli_errors|e3] eqn:H3; csimpl;
    [|intros [= <-]; by apply validate_Raise_exit in H3].
  destruct (validate_catalog_dir fs (wizard_dir script) wizard_ratio)
    as [wizard_errors|e4] eqn:H4; csimpl;
    [done|intros [= <-]; by apply validate_Raise_exit in H4].
Qed.

(** A clean run, and a run with one breach in the stricter directory. *)
Example main_clean_run :
  main ∅ (repo (Some [("en.json", catalog base_ab);
                      ("fr.json", catalog [("a", "un"); ("b", "deux")])])
               (Some [("en.json", catalog base_ab)]))
    repo_script
  = Return (["[i18n-check] ok"], 0%Z).
Proof. vm_compute. reflexivity. Qed.

Example main_failed_run :
  main ∅ (repo (Some [("en.json", catalog base_ab);
                      ("fr.json", catalog [("a", "1"); ("b", "deux")])])
               (Some [("en.json", catalog base_ab);
                      ("fr.json", catalog [("a", "1"); ("b", "deux")])]))
    repo_script
  = Return (["[i18n-check] FAILED:";
             "  - /repo/i18n/operator_wizard/fr.json: too many English-identical values (1/2 = 50.0%, max 40.0%)"],
            1%Z).
Proof. vm_compute. reflexivity. Qed.

(** The status of the process is 0 or 1, and 0 only when [main] returned 0. *)
Lemma exit_status_main (env : environ) (fs : filesystem) (script : Path) :
  (exit_status (main env fs script) = 0%Z ∨ exit_status (main env fs script) = 1%Z)
  ∧ (exit_status (main env fs script) = 0%Z
     ↔ main env fs script = Return (["[i18n-check] ok"], 0%Z)).
Proof.
  rewrite main_steps.
  destruct (parse_ratio env _ default_cli) as [cli_ratio|]; csimpl;
    [|split; [by right|done]].
  destruct (parse_ratio env _ default_wizard) as [wizard_ratio|]; csimpl;
    [|split; [by right|done]].
  destruct (validate_catalog_dir fs (cli_dir script) cli_ratio) as [cli_errors|];
    csimpl; [|split; [by right|done]].
  destruct (validate_catalog_dir fs (wizard_dir script) wizard_ratio)
    as [wizard_errors|]; csimpl; [|split; [by right|done]].
  destruct (cli_errors ++ wizard_errors); simpl; split; auto; done.
Qed.

(** C10. A catalog directory that does not exist. The check returns the one
    error "missing base catalog", as it does for a directory that exists and
    lacks the base file; it does not raise. In [main] the missing directory
    adds that one error to the report, and the other directory is checked
    and reported all the same. *)
Theorem missing_directory (fs : filesystem) (path : Path) (max_same_ratio : float) :
  fs path = None →
  validate_catalog_dir fs path max_same_ratio
  = Return [MissingBase (joinpath path "en.json")]
  ∧ (∀ (fs' : filesystem) (dir : directory),
       fs' path = Some dir → "en.json" ∉ dir.*1 →
       validate_catalog_dir fs' path max_same_ratio
       = validate_catalog_dir fs path max_same_ratio)
  ∧ (∀ (env : environ) (script : Path) cli_ratio wizard_ratio,
       parse_ratio env "I18N_MAX_SAME_RATIO_OPERATOR_CLI" default_cli
         = Return cli_ratio →
       parse_ratio env "I18N_MAX_SAME_RATIO_OPERATOR_WIZARD" default_wizard
         = Return wizard_ratio →
       (path = cli_dir script → ∀ wizard_errors,
          validate_catalog_dir fs (wizard_dir script) wizard_ratio
            = Return wizard_errors →
          main env fs script
          = Return ("[i18n-check] FAILED:"
                    :: ((λ err, "  - " +:+ error_message err)
                          <$> MissingBase (joinpath path "en.json") :: wizard_errors),
                    1%Z))
       ∧ (path = wizard_dir script → ∀ cli_errors,
            validate_catalog_dir fs (cli_dir script) cli_ratio
              = Return cli_errors →
            main env fs script
            = Return ("[i18n-check] FAILED:"
                      :: ((λ err, "  - " +:+ error_message err)
                            <$> cli_errors ++ [MissingBase (joinpath path "en.json")]),
                      1%Z))).
Proof.
  intros Hnone.
  assert (∀ (fs' : filesystem) ratio,
            path_exists fs' (joinpath path "en.json") = false →
            validate_catalog_dir fs' path ratio
            = Return [MissingBase (joinpath path "en.json")]) as Hmissing.
  { intros fs' ratio. apply validate_missing_base. }
  assert (path_exists fs (joinpath path "en.json") = false) as Habsent.
  { unfold path_exists. rewrite lookup_file_joinpath, Hnone. done. }
  split_and!.
  - by apply Hmissing.
  - intros fs' dir Hdir Hbase. rewrite !Hmissing; [done|done|].
    unfold path_exists. rewrite (lookup_file_entry fs' path dir Hdir).
    apply dict_get_None in Hbase. unfold find_entry. by rewrite Hbase.
  - intros env script cli_ratio wizard_ratio Hcli Hwizard. split.
    + intros -> wizard_errors Hrun. rewrite main_steps, Hcli, Hwizard. csimpl.
      by rewrite Hmissing, Hrun.
    + intros -> cli_errors Hrun. rewrite main_steps, Hcli, Hwizard. csimpl.
      rewrite Hrun, Hmissing by done. csimpl.
      by destruct cli_errors.
Qed.

Lemma missing_directory_witness :
  validate_catalog_dir (repo None (Some [("en.json", catalog base_ab)]))
    (cli_dir repo_script) default_cli
  = Return [MissingBase ["repo"; "i18n"; "operator_cli"; "en.json"]]
  ∧ main ∅ (repo None (Some [("en.json", catalog base_ab)])) repo_script
    = Return (["[i18n-check] FAILED:";
               "  - missing base catalog: /repo/i18n/operator_cli/en.json"], 1%Z).
Proof.
  assert (repo None (Some [("en.json", catalog base_ab)]) (cli_dir repo_script)
          = None) as Hnone by (vm_compute; reflexivity).
  destruct (missing_directory _ _ default_cli Hnone) as (Hcheck & _ & Hmain).
  split; [exact Hcheck|].
  destruct (Hmain ∅ repo_script default_cli default_wizard) as [Hcli _];
    [vm_compute; reflexivity..|].
  apply (Hcli eq_refl []). vm_compute. reflexivity.
Defined.

(** *** Threshold resolution *)

(** C1, amended. Threshold resolution. An absent value, and a value that is
    empty or all white space, yield the default. Any other value that is not
    numeric, or that parses to a number below 0.0 or above 1.0, raises
    [SystemExit] with the message of its case. Such an exit is never a
    collected validation error: when it happens to one of the two thresholds
    of [main], [main] raises and reports nothing, whatever the file system
    holds. *)
Theorem parse_ratio_resolution (env : environ) (env_name : string) (default : float) :
  (getenv env env_name = None → parse_ratio env env_name default = Return default)
  ∧ (∀ raw, getenv env env_name = Some raw → strip raw = "" →
       parse_ratio env env_name default = Return default)
  ∧ (∀ raw, getenv env env_name = Some raw → strip raw ≠ "" →
       float_of_string raw = None →
       parse_ratio env env_name default
       = Raise (SystemExit (MustBeFloat env_name raw)))
  ∧ (∀ raw value, getenv env env_name = Some raw → strip raw ≠ "" →
       float_of_string raw = Some value →
       float_lt value float_zero = true ∨ float_gt value float_one = true →
       parse_ratio env env_name default
       = Raise (SystemExit (MustBeInRange env_name value)))
  ∧ (∀ e, parse_ratio env env_name default = Raise e →
       (env_name = "I18N_MAX_SAME_RATIO_OPERATOR_CLI" ∧ default = default_cli)
       ∨ (env_name = "I18N_MAX_SAME_RATIO_OPERATOR_WIZARD"
          ∧ default = default_wizard) →
       ∀ (fs : filesystem) (script : Path),
         ∃ msg, main env fs script = Raise (SystemExit msg)).
Proof.
  split_and!.
  - apply parse_ratio_absent.
  - apply parse_ratio_blank.
  - apply parse_ratio_not_a_float.
  - apply parse_ratio_out_of_range.
  - intros e Hraise Hwhich fs script.
    assert (∃ e', main env fs script = Raise e') as [e' Hmain].
    { rewrite main_steps. destruct Hwhich as [[-> ->]|[-> ->]].
      - rewrite Hraise. by exists e.
      - destruct (parse_ratio env _ default_cli) as [cli_ratio|e']; csimpl.
        + rewrite Hraise. by exists e.
        + by exists e'. }
    destruct (main_Raise_exit env fs script e' Hmain) as [msg ->]. by exists msg.
Qed.

Lemma parse_ratio_resolution_witness :
  parse_ratio ∅ "I18N_MAX_SAME_RATIO_OPERATOR_CLI" default_cli = Return default_cli
  ∧ parse_ratio (setenv "I18N_MAX_SAME_RATIO_OPERATOR_CLI" "  ")
      "I18N_MAX_SAME_RATIO_OPERATOR_CLI" default_cli = Return default_cli
  ∧ parse_ratio (setenv "I18N_MAX_SAME_RATIO_OPERATOR_CLI" "sixty percent")
      "I18N_MAX_SAME_RATIO_OPERATOR_CLI" default_cli
    = Raise (SystemExit (MustBeFloat "I18N_MAX_SAME_RATIO_OPERATOR_CLI"
                           "sixty percent"))
  ∧ parse_ratio (setenv "I18N_MAX_SAME_RATIO_OPERATOR_CLI" "2.0")
      "I18N_MAX_SAME_RATIO_OPERATOR_CLI" default_cli
    = Raise (SystemExit (MustBeInRange "I18N_MAX_SAME_RATIO_OPERATOR_CLI"
                           (float_of_Z 2)))
  ∧ ∃ msg, main (setenv "I18N_MAX_SAME_RATIO_OPERATOR_CLI" "2.0")
             (repo None None) repo_script = Raise (SystemExit msg).
Proof.
  destruct (parse_ratio_resolution ∅ "I18N_MAX_SAME_RATIO_OPERATOR_CLI" default_cli)
    as (Habsent & _).
  destruct (parse_ratio_resolution (setenv "I18N_MAX_SAME_RATIO_OPERATOR_CLI" "  ")
              "I18N_MAX_SAME_RATIO_OPERATOR_CLI" default_cli)
    as (_ & Hblank & _).
  destruct (parse_ratio_resolution
              (setenv "I18N_MAX_SAME_RATIO_OPERATOR_CLI" "sixty percent")
              "I18N_MAX_SAME_RATIO_OPERATOR_CLI" default_cli)
    as (_ & _ & Hfloat & _).
  destruct (parse_ratio_resolution (setenv "I18N_MAX_SAME_RATIO_OPERATOR_CLI" "2.0")
              "I18N_MAX_SAME_RATIO_OPERATOR_CLI" default_cli)
    as (_ & _ & _ & Hrange & Hmain).
  assert (parse_ratio (setenv "I18N_MAX_SAME_RATIO_OPERATOR_CLI" "2.0")
            "I18N_MAX_SAME_RATIO_OPERATOR_CLI" default_cli
          = Raise (SystemExit (MustBeInRange "I18N_MAX_SAME_RATIO_OPERATOR_CLI"
                                 (float_of_Z 2)))) as Htwo.
  { apply (Hrange "2.0"); [vm_compute; reflexivity|vm_compute; discriminate
                          |vm_compute; reflexivity|right; vm_compute; reflexivity]. }
  split_and!.
  - apply Habsent. vm_compute. reflexivity.
  - apply (Hblank "  "); vm_compute; reflexivity.
  - apply Hfloat; [vm_compute; reflexivity|vm_compute; discriminate
                  |vm_compute; reflexivity].
  - exact Htwo.
  - apply (Hmain _ Htwo). left. split; reflexivity.
Defined.

(** C1 as first stated fails on a value of white space only: it is present,
    not empty, and [float] rejects it, yet [parse_ratio] returns the default
    instead of raising. *)
Lemma parse_ratio_blank_counterexample :
  getenv (setenv "I18N_MAX_SAME_RATIO_OPERATOR_CLI" " ")
    "I18N_MAX_SAME_RATIO_OPERATOR_CLI" = Some " "
  ∧ " " ≠ ""
  ∧ float_of_string " " = None
  ∧ parse_ratio (setenv "I18N_MAX_SAME_RATIO_OPERATOR_CLI" " ")
      "I18N_MAX_SAME_RATIO_OPERATOR_CLI" default_cli = Return default_cli
  ∧ ¬ ∃ e, parse_ratio (setenv "I18N_MAX_SAME_RATIO_OPERATOR_CLI" " ")
             "I18N_MAX_SAME_RATIO_OPERATOR_CLI" default_cli = Raise e.
Proof.
  assert (parse_ratio (setenv "I18N_MAX_SAME_RATIO_OPERATOR_CLI" " ")
            "I18N_MAX_SAME_RATIO_OPERATOR_CLI" default_cli = Return default_cli)
    as Hdefault by (vm_compute; reflexivity).
  split_and!; try (vm_compute; reflexivity); [done|].
  intros [e He]. rewrite Hdefault in He. discriminate.
Qed.

(** What the code does with the value [nan]: it parses, it is neither below
    0.0 nor above 1.0, and it is returned as the threshold. *)
Example parse_ratio_nan :
  parse_ratio (setenv "I18N_MAX_SAME_RATIO_OPERATOR_CLI" "nan")
    "I18N_MAX_SAME_RATIO_OPERATOR_CLI" default_cli = Return S754_nan.
Proof. vm_compute. reflexivity. Qed.

(** *** The locale files *)

Lemma float_gt_irrefl (x : float) : float_gt x x = false.
Proof.
  unfold float_gt, SFltb. destruct x as [[]|[]| |[] m e]; simpl; try done.
  all: by rewrite Z.compare_refl, Pos.compare_cont_refl.
Qed.

Section LocaleClaims.
Context (fs : filesystem) (path : Path) (max_same_ratio : float).
Context (dir : directory) (base data : dict string) (n : string).

Let f := joinpath path n.
Let check := check_locale_file fs base (key_set base) (size (key_set base))
               max_same_ratio.

(** [n] names a locale file of the directory at [path], whose entries have
    distinct names and whose base catalog loads and has keys. *)
Hypothesis path_is_dir : fs path = Some dir.
Hypothesis distinct_names : NoDup dir.*1.
Hypothesis base_loads : load_json fs (joinpath path "en.json") = Return base.
Hypothesis base_has_keys : base ≠ [].
Hypothesis json_suffix : endswith n ".json" = true.
Hypothesis not_base_language : startswith (stem f) "en" = false.
Hypothesis data_loads : load_json fs f = Return data.

Lemma locale_file_globbed : f ∈ glob_json fs path.
Proof using path_is_dir json_suffix data_loads.
  apply (glob_json_elem fs path dir path_is_dir). exists n.
  split_and!; [done| |done]. by apply (load_json_entry fs path dir path_is_dir n data).
Qed.

(** The report on [f], from the result of its own check. *)
Lemma locale_file_report added :
  check [] f = Return added →
  match validate_catalog_dir fs path max_same_ratio with
  | Return errs => errors_for f errs = added
  | Raise e => aborted_by_other_file fs path f e
  end.
Proof using path_is_dir distinct_names base_loads base_has_keys json_suffix data_loads.
  intros Hcheck.
  apply (validate_file_report fs path max_same_ratio base); try done.
  - by apply (glob_json_NoDup fs path dir).
  - apply locale_file_globbed.
Qed.

(** C2. Clone precedence. A locale file with the key set of the base and the
    value of the base for every key gets the "full English clone" error, and
    that is the only error against it: no ratio-breach error, whatever the
    threshold, also when the ratio, here total over total, is above it. The
    one other outcome is that the run was cut short by another file that
    could not be loaded. *)
Theorem full_clone_precedence :
  key_set data = key_set base →
  (∀ k v, (k, v) ∈ base → dict_get data k = Some v) →
  match validate_catalog_dir fs path max_same_ratio with
  | Return errs =>
      errors_for f errs = [FullClone f (length base) (length base)]
      ∧ (∀ e, e ∈ errs → error_path e = f → is_ratio_breach e = false)
  | Raise e => aborted_by_other_file fs path f e
  end.
Proof using path_is_dir distinct_names base_loads base_has_keys json_suffix
  not_base_language data_loads.
  intros Hkeys Hvalues.
  destruct (check_key_parity fs base max_same_ratio f data) as (ratio & _ & Hcheck);
    try done.
  { by apply (load_json_NoDup fs (joinpath path "en.json")). }
  rewrite decide_True in Hcheck by by apply same_values_total.
  pose proof (locale_file_report _ Hcheck) as Hreport.
  destruct (validate_catalog_dir fs path max_same_ratio) as [errs|e]; [|done].
  split; [done|]. intros e He Hpath.
  assert (e ∈ errors_for f errs) as Hin by by apply elem_of_errors_for.
  rewrite Hreport in Hin. by apply list_elem_of_singleton in Hin as ->.
Qed.

(** C3. The ratio test is strict. For a locale file with the key set of the
    base that does not repeat every value, let [ratio] be [same / total] as
    the code computes it, the quotient rounded to a float. A ratio-breach
    error is reported against the file exactly when [ratio > max_same_ratio];
    it is then the only error against the file and carries the two counts,
    the ratio and the threshold; otherwise there is no error against the
    file, in particular when the ratio equals the threshold. *)
Theorem ratio_test_is_strict (ratio : float) :
  key_set data = key_set base →
  same_values base data ≠ length base →
  int_truediv (same_values base data) (length base) = Some ratio →
  match validate_catalog_dir fs path max_same_ratio with
  | Return errs =>
      ((∃ e, e ∈ errs ∧ error_path e = f ∧ is_ratio_breach e = true)
       ↔ float_gt ratio max_same_ratio = true)
      ∧ errors_for f errs
        = (if float_gt ratio max_same_ratio
           then [TooManySame f (same_values base data) (length base) ratio
                   max_same_ratio]
           else [])
      ∧ (ratio = max_same_ratio → errors_for f errs = [])
  | Raise e => aborted_by_other_file fs path f e
  end.
Proof using path_is_dir distinct_names base_loads base_has_keys json_suffix
  not_base_language data_loads.
  intros Hkeys Hsame Hratio.
  destruct (check_key_parity fs base max_same_ratio f data) as (ratio' & Hratio' & Hcheck);
    try done.
  { by apply (load_json_NoDup fs (joinpath path "en.json")). }
  assert (ratio' = ratio) as -> by congruence.
  rewrite decide_False in Hcheck by done.
  pose proof (locale_file_report _ Hcheck) as Hreport.
  destruct (validate_catalog_dir fs path max_same_ratio) as [errs|e]; [|done].
  split_and!; [|done|].
  - split.
    + intros (e & He & Hpath & Hbreach).
      assert (e ∈ errors_for f errs) as Hin by by apply elem_of_errors_for.
      rewrite Hreport in Hin. destruct (float_gt ratio max_same_ratio); [done|].
      by apply elem_of_nil in Hin.
    + intros Hgt. rewrite Hgt in Hreport.
      exists (TooManySame f (same_values base data) (length base) ratio max_same_ratio).
      assert (TooManySame f (same_values base data) (length base) ratio max_same_ratio
              ∈ errors_for f errs) as Hin by (rewrite Hreport; by left).
      apply elem_of_errors_for in Hin as [_ Hin]. done.
  - intros ->. by rewrite Hreport, float_gt_irrefl.
Qed.

(** C4. Key-set mismatch. A locale file whose key set differs from the base's
    gets exactly one error, the key mismatch, with the count of the missing
    keys and the count of the extra keys, each only when it is not zero (one
    of them is not). No clone or ratio error is reported against it. The loop
    goes on: every file of the directory, the later ones included, has the
    errors of its own check in the result. *)
Theorem key_mismatch_report :
  key_set data ≠ key_set base →
  mismatch_details base data ≠ []
  ∧ match validate_catalog_dir fs path max_same_ratio with
    | Return errs =>
        errors_for f errs = [KeyMismatch f (mismatch_details base data)]
        ∧ (∀ g, g ∈ glob_json fs path → check [] g = Return (errors_for g errs))
    | Raise e => aborted_by_other_file fs path f e
    end.
Proof using path_is_dir distinct_names base_loads base_has_keys json_suffix
  not_base_language data_loads.
  intros Hkeys. split.
  - rewrite key_parity in Hkeys. unfold mismatch_details.
    destruct (decide (missing_count base data = 0)); [|done].
    destruct (decide (extra_count base data = 0)); [|done].
    exfalso. by apply Hkeys.
  - pose proof (check_key_mismatch fs base max_same_ratio f data
                  not_base_language data_loads Hkeys) as Hcheck.
    pose proof (locale_file_report _ Hcheck) as Hreport.
    destruct (validate_catalog_dir fs path max_same_ratio) as [errs|e] eqn:Hrun;
      [|done].
    split; [done|]. intros g Hg.
    apply (validate_Return_files fs path max_same_ratio base); try done.
    by apply (glob_json_NoDup fs path dir).
Qed.

End LocaleClaims.

(** Discharges the standing hypotheses of the locale file theorems on a
    sample directory, by evaluation. *)
Local Ltac sample_file :=
  first [ reflexivity | compute_done | vm_compute; reflexivity
        | vm_compute; discriminate ].

Lemma full_clone_precedence_witness :
  int_truediv 2 2 = Some float_one ∧ float_gt float_one half = true
  ∧ ∃ errs, validate_catalog_dir (with_french base_ab) ["i18n"] half = Return errs
            ∧ errors_for ["i18n"; "fr.json"] errs
              = [FullClone ["i18n"; "fr.json"] 2 2]
            ∧ error_message <$> errs
              = ["/i18n/fr.json: appears to be a full English clone (2/2)"].
Proof.
  pose proof (full_clone_precedence (with_french base_ab) ["i18n"] half
                [("fr.json", catalog base_ab); ("en.json", catalog base_ab)]
                base_ab base_ab "fr.json") as Hclone.
  assert (validate_catalog_dir (with_french base_ab) ["i18n"] half
          = Return [FullClone ["i18n"; "fr.json"] 2 2]) as Hrun
    by (vm_compute; reflexivity).
  rewrite Hrun in Hclone.
  split_and!; [vm_compute; reflexivity..|].
  eexists. split; [exact Hrun|]. split; [|vm_compute; reflexivity].
  apply Hclone; try sample_file.
  intros k v Hin.
  repeat (apply elem_of_cons in Hin as [[= -> ->]|Hin]; [reflexivity|]).
  by apply elem_of_nil in Hin.
Defined.

Lemma ratio_test_is_strict_witness :
  same_values base_ab [("a", "1"); ("b", "X")] = 1
  ∧ int_truediv 1 2 = Some half
  ∧ ∃ errs, validate_catalog_dir (with_french [("a", "1"); ("b", "X")]) ["i18n"] half
            = Return errs
            ∧ errors_for ["i18n"; "fr.json"] errs = [].
Proof.
  pose proof (ratio_test_is_strict (with_french [("a", "1"); ("b", "X")]) ["i18n"]
                half
                [("fr.json", catalog [("a", "1"); ("b", "X")]);
                 ("en.json", catalog base_ab)]
                base_ab [("a", "1"); ("b", "X")] "fr.json") as Hstrict.
  assert (validate_catalog_dir (with_french [("a", "1"); ("b", "X")]) ["i18n"] half
          = Return []) as Hrun by (vm_compute; reflexivity).
  rewrite Hrun in Hstrict.
  split_and!; [vm_compute; reflexivity..|].
  eexists. split; [exact Hrun|].
  apply (Hstrict ltac:(sample_file) ltac:(sample_file) ltac:(sample_file)
           ltac:(sample_file) ltac:(sample_file) ltac:(sample_file)
           ltac:(sample_file) half); try sample_file.
Defined.

Lemma key_mismatch_report_witness :
  ∃ errs, validate_catalog_dir (with_french [("a", "1"); ("c", "3")]) ["i18n"] half
          = Return errs
          ∧ errors_for ["i18n"; "fr.json"] errs
            = [KeyMismatch ["i18n"; "fr.json"] ["missing=1"; "extra=1"]].
Proof.
  pose proof (key_mismatch_report (with_french [("a", "1"); ("c", "3")]) ["i18n"]
                half
                [("fr.json", catalog [("a", "1"); ("c", "3")]);
                 ("en.json", catalog base_ab)]
                base_ab [("a", "1"); ("c", "3")] "fr.json") as Hmismatch.
  assert (validate_catalog_dir (with_french [("a", "1"); ("c", "3")]) ["i18n"] half
          = Return [KeyMismatch ["i18n"; "fr.json"] ["missing=1"; "extra=1"]])
    as Hrun by (vm_compute; reflexivity).
  rewrite Hrun in Hmismatch.
  eexists. split; [exact Hrun|].
  apply Hmismatch; sample_file.
Defined.

(** The specification's example of a missing key: base [a], [b], [c] and a
    locale without [b]. *)
Example missing_one_key :
  error_message <$>
    match validate_catalog_dir
            (one_directory ["i18n"]
               [("en.json", catalog [("a", "1"); ("b", "2"); ("c", "3")]);
                ("fr.json", catalog [("a", "1"); ("c", "3")])])
            ["i18n"] half with
    | Return errs => errs
    | Raise _ => []
    end
  = ["/i18n/fr.json: key mismatch (missing=1)"].
Proof. vm_compute. reflexivity. Qed.

(** *** Files of the base language *)

Section ReplaceEntry.
Context (fs : filesystem) (path : Path) (n : string) (c : file).

Let fs' := replace_entry fs path n c.

Lemma replace_entry_names (d : directory) :
  ((λ entry : string * file,
      if String.eqb entry.1 n then (entry.1, c) else entry) <$> d).*1 = d.*1.
Proof.
  induction d as [|[m x] d IH]; csimpl; [done|].
  rewrite IH. by destruct (String.eqb m n).
Qed.

Lemma replace_entry_find (d : directory) m :
  m ≠ n →
  find_entry ((λ entry : string * file,
                 if String.eqb entry.1 n then (entry.1, c) else entry) <$> d) m
  = find_entry d m.
Proof.
  intros Hne. unfold find_entry. induction d as [|[m' x] d IH]; csimpl; [done|].
  destruct (String.eqb_spec m' n) as [->|_]; csimpl.
  - destruct (String.eqb_spec m n) as [|_]; [done|apply IH].
  - destruct (String.eqb m m'); [done|apply IH].
Qed.

Lemma replace_entry_glob : glob_json fs' path = glob_json fs path.
Proof.
  unfold glob_json, fs', replace_entry. rewrite decide_True by done.
  destruct (fs path) as [d|]; csimpl; [|done]. by rewrite replace_entry_names.
Qed.

Lemma replace_entry_lookup m :
  m ≠ n → lookup_file fs' (joinpath path m) = lookup_file fs (joinpath path m).
Proof.
  intros Hne. rewrite !lookup_file_joinpath. unfold fs', replace_entry.
  rewrite decide_True by done.
  destruct (fs path) as [d|]; csimpl; [|done]. by apply replace_entry_find.
Qed.

Lemma replace_entry_load m :
  m ≠ n → load_json fs' (joinpath path m) = load_json fs (joinpath path m).
Proof.
  intros Hne. unfold load_json, open_and_load. by rewrite replace_entry_lookup.
Qed.

Lemma replace_entry_exists m :
  m ≠ n → path_exists fs' (joinpath path m) = path_exists fs (joinpath path m).
Proof. intros Hne. unfold path_exists. by rewrite replace_entry_lookup. Qed.

End ReplaceEntry.

Lemma check_locale_file_load (fs1 fs2 : filesystem) (base : dict string)
    (base_keys : gset string) (key_total : nat) (ratio : float)
    (errors : list error) (g : Path) :
  load_json fs1 g = load_json fs2 g →
  check_locale_file fs1 base base_keys key_total ratio errors g
  = check_locale_file fs2 base base_keys key_total ratio errors g.
Proof. intros Hload. unfold check_locale_file. by rewrite Hload. Qed.

Lemma elem_of_concat {A : Type} (ls : list (list A)) (x : A) :
  x ∈ concat ls ↔ ∃ l, x ∈ l ∧ l ∈ ls.
Proof.
  rewrite list_elem_of_In, in_concat. split; intros (l & H1 & H2); exists l.
  - by rewrite !list_elem_of_In.
  - by rewrite <- !list_elem_of_In.
Qed.

(** Where the errors of a directory come from. *)
Lemma validate_Return_elem (fs : filesystem) (path : Path) (ratio : float)
    (errs : list error) (e : error) :
  validate_catalog_dir fs path ratio = Return errs → e ∈ errs →
  is_locale_error e = false
  ∨ ∃ base added,
      check_locale_file fs base (key_set base) (size (key_set base)) ratio []
        (error_path e) = Return added
      ∧ e ∈ added.
Proof.
  unfold validate_catalog_dir.
  destruct (path_exists fs (joinpath path "en.json")); csimpl;
    [|intros [= <-] ->%list_elem_of_singleton; by left].
  destruct (load_json fs (joinpath path "en.json")) as [base|]; csimpl; [|done].
  destruct (size (key_set base) =? 0);
    [intros [= <-] ->%list_elem_of_singleton; by left|].
  intros Hrun He. right. exists base.
  apply for_each_appends_Return in Hrun as (added & Hall & ->);
    [|apply check_locale_file_appends].
  simpl in He. apply elem_of_concat in He as (a & He & Ha).
  apply list_elem_of_lookup in Ha as [i Hi].
  destruct (Forall2_lookup_r _ _ _ i a Hall Hi) as (g & _ & Hg).
  exists a. split; [|done].
  apply (check_Return fs base ratio) in Hg as Hpaths. destruct Hpaths as [Hpaths _].
  rewrite Forall_forall in Hpaths. destruct (Hpaths e He) as [-> _]. done.
Qed.

(** C6. Base-prefix exclusion. A catalog file whose stem starts with [en] is
    skipped by the loop before it is opened, whatever the base and the errors
    so far. No error of the comparison (key mismatch, clone, ratio) is ever
    reported against it. If it is not the base catalog [en.json] itself, no
    error at all is reported against it and the outcome of the directory's
    check, errors or abort, does not depend on its contents: they may be
    replaced by any other, unreadable ones included. *)
Theorem base_prefix_exclusion (fs : filesystem) (path : Path)
    (max_same_ratio : float) (n : string) :
  startswith (stem (joinpath path n)) "en" = true →
  (∀ base base_keys key_total errors,
     check_locale_file fs base base_keys key_total max_same_ratio errors
       (joinpath path n) = Return errors)
  ∧ (∀ errs e, validate_catalog_dir fs path max_same_ratio = Return errs →
       e ∈ errs → error_path e = joinpath path n → is_locale_error e = false)
  ∧ (n ≠ "en.json" →
     (∀ errs, validate_catalog_dir fs path max_same_ratio = Return errs →
        errors_for (joinpath path n) errs = [])
     ∧ (∀ c, validate_catalog_dir (replace_entry fs path n c) path max_same_ratio
             = validate_catalog_dir fs path max_same_ratio)).
Proof.
  intros Hen.
  assert (∀ errs e, validate_catalog_dir fs path max_same_ratio = Return errs →
            e ∈ errs → error_path e = joinpath path n → is_locale_error e = false)
    as Hnone.
  { intros errs e Hrun He Hpath.
    destruct (validate_Return_elem fs path max_same_ratio errs e Hrun He)
      as [Hbase|(base & added & Hcheck & Hin)]; [done|].
    rewrite Hpath in Hcheck. unfold check_locale_file in Hcheck.
    rewrite Hen in Hcheck. injection Hcheck as <-. by apply elem_of_nil in Hin. }
  split_and!; [|done|].
  { intros base base_keys key_total errors. unfold check_locale_file. by rewrite Hen. }
  intros Hother. split.
  - intros errs Hrun. apply elem_of_nil_inv. intros e [Hpath He]%elem_of_errors_for.
    pose proof (Hnone errs e Hrun He Hpath) as Hkind.
    unfold validate_catalog_dir in Hrun.
    destruct (path_exists fs (joinpath path "en.json")); csimpl in Hrun.
    + destruct (load_json fs (joinpath path "en.json")) as [base|]; csimpl in Hrun;
        [|done].
      destruct (size (key_set base) =? 0).
      * injection Hrun as <-. apply list_elem_of_singleton in He as ->.
        simpl in Hpath. by apply joinpath_inj in Hpath.
      * apply for_each_appends_Return in Hrun as (added & Hall & ->);
          [|apply check_locale_file_appends].
        simpl in He. apply elem_of_concat in He as (a & He & Ha).
        apply list_elem_of_lookup in Ha as [i Hi].
        destruct (Forall2_lookup_r _ _ _ i a Hall Hi) as (g & _ & Hg).
        apply (check_Return fs base max_same_ratio) in Hg as [Hpaths _].
        rewrite Forall_forall in Hpaths. destruct (Hpaths e He) as [_ Htrue].
        congruence.
    + injection Hrun as <-. apply list_elem_of_singleton in He as ->.
      simpl in Hpath. by apply joinpath_inj in Hpath.
  - intros c. unfold validate_catalog_dir.
    rewrite replace_entry_exists, replace_entry_load, replace_entry_glob by done.
    destruct (path_exists fs (joinpath path "en.json")); csimpl; [|done].
    destruct (load_json fs (joinpath path "en.json")) as [base|]; csimpl; [|done].
    destruct (size (key_set base) =? 0); [done|].
    apply for_each_ext. intros g errors Hg.
    destruct (decide (g = joinpath path n)) as [->|Hne].
    + unfold check_locale_file. by rewrite Hen.
    + apply check_locale_file_load.
      rewrite elem_of_sorted_paths in Hg. unfold glob_json in Hg.
      destruct (fs path) as [d|]; [|by apply elem_of_nil in Hg].
      apply list_elem_of_fmap in Hg as (m & -> & _).
      apply replace_entry_load. congruence.
Qed.

Lemma base_prefix_exclusion_witness :
  validate_catalog_dir with_british ["i18n"] half = Return []
  ∧ validate_catalog_dir
      (replace_entry with_british ["i18n"] "en-GB.json" (catalog [("z", "9")]))
      ["i18n"] half
    = validate_catalog_dir with_british ["i18n"] half.
Proof.
  destruct (base_prefix_exclusion with_british ["i18n"] half "en-GB.json")
    as (_ & _ & Hother); [vm_compute; reflexivity|].
  destruct Hother as [_ Hsame]; [discriminate|].
  split; [vm_compute; reflexivity|apply Hsame].
Defined.

(** *** Catalogs with values that are not strings *)

Lemma non_string_keys (raw : dict json) (k : string) :
  NoDup raw.*1 →
  k ∈ (filter (λ kv, is_str kv.2 = false) raw).*1
  ↔ ∃ v, dict_get raw k = Some v ∧ is_str v = false.
Proof.
  intros Hnd. rewrite list_elem_of_fmap. split.
  - intros ([k' v] & -> & [Hv Hin]%list_elem_of_filter). exists v.
    split; [by apply dict_get_elem_Some|done].
  - intros (v & Hget & Hv). exists (k, v). split; [done|].
    apply list_elem_of_filter. split; [done|by apply dict_get_Some_elem].
Qed.

(** [main] raises as soon as the check of one of its two directories raises
    for every threshold. *)
Lemma main_raises (env : environ) (fs : filesystem) (script dir : Path) :
  dir = cli_dir script ∨ dir = wizard_dir script →
  (∀ ratio, ∃ e, validate_catalog_dir fs dir ratio = Raise e) →
  ∃ e, main env fs script = Raise e.
Proof.
  intros Hdir Hraises. rewrite main_steps.
  destruct (parse_ratio env _ default_cli) as [cli_ratio|e]; csimpl; [|by exists e].
  destruct (parse_ratio env _ default_wizard) as [wizard_ratio|e]; csimpl;
    [|by exists e].
  destruct Hdir as [-> | ->].
  - destruct (Hraises cli_ratio) as [e ->]. by exists e.
  - destruct (validate_catalog_dir fs (cli_dir script) cli_ratio) as [cli_errors|e];
      csimpl; [|by exists e].
    destruct (Hraises wizard_ratio) as [e ->]. by exists e.
Qed.

(** C8. Non-string value rejection. When the object of a catalog file maps a
    key to a value that is not a string, [load_json] raises [SystemExit].
    The message names the file and lists the first five offending keys, in
    the order of the object, joined by commas: at most five, the rest left
    out. Nothing is reported of the run: the check of the file's directory
    raises for every threshold, whether the file is the base catalog or a
    locale file that the loop reaches, and so does [main] when the directory
    is one of its two. *)
Theorem non_string_values_rejected (fs : filesystem) (path : Path)
    (members : list (string * json)) :
  lookup_file fs path = Some (Contents (JObject members)) →
  (∃ k v, dict_get (dict_of_pairs members) k = Some v ∧ is_str v = false) →
  let offending :=
    (filter (λ kv, is_str kv.2 = false) (dict_of_pairs members)).*1 in
  let listed := take 5 offending in
  load_json fs path = Raise (SystemExit (NonStringValues path (join ", " listed)))
  ∧ (∀ repr_str str_float str_exc,
       exit_text repr_str str_float str_exc
         (NonStringValues path (join ", " listed))
       = "catalog " +:+ path_str path +:+ " has non-string values for keys: "
         +:+ join ", " listed)
  ∧ length listed = min 5 (length offending) ∧ 0 < length listed ≤ 5
  ∧ (∀ k, k ∈ offending ↔
          ∃ v, dict_get (dict_of_pairs members) k = Some v ∧ is_str v = false)
  ∧ (∀ dir n, path = joinpath dir n →
       n = "en.json"
       ∨ (endswith n ".json" = true ∧ startswith (stem path) "en" = false
          ∧ ∃ base, load_json fs (joinpath dir "en.json") = Return base
                    ∧ base ≠ []) →
       (∀ ratio, ∃ msg, validate_catalog_dir fs dir ratio = Raise (SystemExit msg))
       ∧ (∀ env script, dir = cli_dir script ∨ dir = wizard_dir script →
            ∃ msg, main env fs script = Raise (SystemExit msg))).
Proof.
  intros Hfile (k & v & Hget & Hv) offending listed.
  assert (∀ k, k ∈ offending ↔
            ∃ v, dict_get (dict_of_pairs members) k = Some v ∧ is_str v = false)
    as Hoffending.
  { intros k'. apply non_string_keys, dict_of_pairs_NoDup. }
  assert (k ∈ offending) as Hk by (apply Hoffending; by exists v).
  assert (load_json fs path
          = Raise (SystemExit (NonStringValues path (join ", " listed)))) as Hload.
  { unfold load_json, open_and_load. rewrite Hfile. fold offending.
    destruct offending; [by apply elem_of_nil in Hk|done]. }
  assert (length listed = min 5 (length offending)) as Hlen by apply length_take.
  split_and!; try done.
  - rewrite Hlen. destruct offending; [by apply elem_of_nil in Hk|simpl; lia].
  - lia.
  - intros dir n -> Hloaded.
    assert (∀ ratio, ∃ e, validate_catalog_dir fs dir ratio = Raise e) as Hraises.
    { intros ratio. destruct Hloaded as [->|(Hjson & Hen & base & Hbase & Hkeys)].
      - eexists. unfold validate_catalog_dir, path_exists. rewrite Hfile, Hload.
        rewrite bool_decide_eq_true_2 by done. done.
      - destruct (validate_catalog_dir fs dir ratio) as [errs|e] eqn:Hrun;
          [|by exists e].
        assert (joinpath dir n ∈ glob_json fs dir) as Hglob.
        { rewrite lookup_file_joinpath in Hfile.
          destruct (fs dir) as [d|] eqn:Hdir; [|done].
          apply (glob_json_elem fs dir d Hdir). exists n. split_and!; [done| |done].
          apply dict_get_is_Some. unfold find_entry in Hfile. simpl in Hfile.
          by rewrite Hfile. }
        destruct (validate_Return_checked fs dir ratio base Hbase Hkeys errs _
                    Hrun Hglob) as [added Hadded].
        rewrite (check_load_fails fs base ratio [] (joinpath dir n) _ Hen Hload)
          in Hadded. done. }
    split.
    + intros ratio. destruct (Hraises ratio) as [e He].
      destruct (validate_Raise_exit fs dir ratio e He) as [msg ->]. by exists msg.
    + intros env script Hdir.
      destruct (main_raises env fs script dir Hdir Hraises) as [e He].
      destruct (main_Raise_exit env fs script e He) as [msg ->]. by exists msg.
Qed.

Lemma non_string_values_rejected_witness :
  load_json with_numbers ["i18n"; "fr.json"]
  = Raise (SystemExit (NonStringValues ["i18n"; "fr.json"] "c, d, e, f, g"))
  ∧ ∃ msg, validate_catalog_dir with_numbers ["i18n"] half = Raise (SystemExit msg).
Proof.
  destruct (non_string_values_rejected with_numbers ["i18n"; "fr.json"]
              french_members) as (Hload & _ & _ & _ & _ & Hrun).
  { vm_compute. reflexivity. }
  { exists "c", JNull. split; vm_compute; reflexivity. }
  split; [exact Hload|].
  destruct (Hrun ["i18n"] "fr.json" eq_refl) as [Hraises _]; [|apply Hraises].
  right. split_and!; [vm_compute; reflexivity..|].
  exists base_ab. split; [vm_compute; reflexivity|discriminate].
Defined.

(** *** Determinism *)

Section Determinism.
Context (fs1 fs2 : filesystem).
Hypothesis same : same_files fs1 fs2.

Lemma dict_get_perm {V : Type} (d1 d2 : dict V) (k : string) :
  d1 ≡ₚ d2 → NoDup d1.*1 → dict_get d1 k = dict_get d2 k.
Proof using Type.
  intros Hperm Hnd. assert (NoDup d2.*1) as Hnd2 by by rewrite <- Hperm.
  destruct (dict_get d1 k) as [v|] eqn:Hget.
  - symmetry. apply dict_get_elem_Some; [done|]. rewrite <- Hperm.
    by apply dict_get_Some_elem.
  - symmetry. apply dict_get_None. rewrite <- Hperm. by apply dict_get_None.
Qed.

Lemma same_files_lookup (q : Path) : lookup_file fs1 q = lookup_file fs2 q.
Proof using same.
  unfold lookup_file. destruct q as [|c q]; [done|].
  pose proof (same (parent (c :: q))) as Hdir.
  destruct (fs1 _) as [d1|], (fs2 _) as [d2|]; try done.
  destruct Hdir as [Hperm Hnd]. csimpl. unfold find_entry. by apply dict_get_perm.
Qed.

Lemma same_files_load (q : Path) : load_json fs1 q = load_json fs2 q.
Proof using same. unfold load_json, open_and_load. by rewrite same_files_lookup. Qed.

Lemma same_files_glob (path : Path) :
  sorted_paths (glob_json fs1 path) = sorted_paths (glob_json fs2 path).
Proof using same.
  apply sorted_paths_proper. unfold glob_json. pose proof (same path) as Hdir.
  destruct (fs1 path) as [d1|], (fs2 path) as [d2|]; try done.
  destruct Hdir as [Hperm _]. by rewrite Hperm.
Qed.

Lemma same_files_validate (path : Path) (ratio : float) :
  validate_catalog_dir fs1 path ratio = validate_catalog_dir fs2 path ratio.
Proof using same.
  unfold validate_catalog_dir, path_exists.
  rewrite same_files_lookup, same_files_load, same_files_glob.
  destruct (bool_decide _); csimpl; [|done].
  destruct (load_json fs2 _) as [base|]; csimpl; [|done].
  destruct (size (key_set base) =? 0); [done|].
  apply for_each_ext. intros g errors _.
  apply check_locale_file_load, same_files_load.
Qed.

Lemma same_files_main (env : environ) (script : Path) :
  main env fs1 script = main env fs2 script.
Proof using same.
  rewrite !main_steps.
  destruct (parse_ratio env _ default_cli) as [cli_ratio|]; csimpl; [|done].
  destruct (parse_ratio env _ default_wizard) as [wizard_ratio|]; csimpl; [|done].
  by rewrite !same_files_validate.
Qed.

End Determinism.

Lemma StronglySorted_sublist {A : Type} (R : relation A) (l1 l2 : list A) :
  l1 `sublist_of` l2 → StronglySorted R l2 → StronglySorted R l1.
Proof.
  induction 1 as [|x l1 l2 Hsub IH|x l1 l2 Hsub IH]; [done|..].
  - intros [Hsorted Hall]%StronglySorted_inv. constructor; [by apply IH|].
    rewrite Forall_forall in Hall |- *. intros y Hy. apply Hall.
    by eapply elem_of_sublist.
  - intros [Hsorted _]%StronglySorted_inv. by apply IH.
Qed.

(** The errors of a directory are in the order of their paths. *)
Lemma validate_Return_order (fs : filesystem) (path : Path) (ratio : float)
    (errs : list error) :
  validate_catalog_dir fs path ratio = Return errs →
  StronglySorted path_le (error_path <$> errs).
Proof.
  intros Hrun.
  assert (∀ e : error, StronglySorted path_le (error_path <$> [e])) as Hone.
  { intros e. repeat constructor. }
  destruct (path_exists fs (joinpath path "en.json")) eqn:Hexists.
  - destruct (load_json fs (joinpath path "en.json")) as [base|e] eqn:Hbase.
    + destruct (decide (base = [])) as [->|Hkeys].
      * rewrite validate_base_no_keys in Hrun by done.
        injection Hrun as <-. apply Hone.
      * apply (StronglySorted_sublist _ _ (sorted_paths (glob_json fs path))).
        -- by apply (validate_Return_sorted fs path ratio base).
        -- apply sorted_paths_sorted.
    + unfold validate_catalog_dir in Hrun. by rewrite Hexists, Hbase in Hrun.
  - rewrite validate_missing_base in Hrun by done.
    injection Hrun as <-. apply Hone.
Qed.

(** C9. Determinism of output order. Two file systems that hold the same
    directories, each enumerated in an order of its own, give the same
    outcome, for one directory and for the whole run: the order in which the
    system lists a directory does not show. The errors of a directory come
    in the sorted order of the paths of their files, which for the files of
    one directory is the order of their names, character by character. The
    run reports the errors of the command-line directory, then those of the
    wizard directory. *)
Theorem output_order_is_determined (fs1 fs2 : filesystem) :
  same_files fs1 fs2 →
  (∀ path ratio,
     validate_catalog_dir fs1 path ratio = validate_catalog_dir fs2 path ratio)
  ∧ (∀ env script, main env fs1 script = main env fs2 script)
  ∧ (∀ path ratio errs,
       validate_catalog_dir fs1 path ratio = Return errs →
       StronglySorted path_le (error_path <$> errs))
  ∧ (∀ path a b,
       path_compare (joinpath path a) (joinpath path b) = String.compare a b)
  ∧ (∀ env script cli_ratio wizard_ratio cli_errors wizard_errors,
       parse_ratio env "I18N_MAX_SAME_RATIO_OPERATOR_CLI" default_cli
         = Return cli_ratio →
       parse_ratio env "I18N_MAX_SAME_RATIO_OPERATOR_WIZARD" default_wizard
         = Return wizard_ratio →
       validate_catalog_dir fs1 (cli_dir script) cli_ratio = Return cli_errors →
       validate_catalog_dir fs1 (wizard_dir script) wizard_ratio
         = Return wizard_errors →
       main env fs1 script = Return (report (cli_errors ++ wizard_errors))).
Proof.
  intros Hsame. split_and!.
  - intros path ratio. by apply same_files_validate.
  - intros env script. by apply same_files_main.
  - intros path ratio errs. apply validate_Return_order.
  - apply path_compare_joinpath.
  - intros env script cli_ratio wizard_ratio cli_errors wizard_errors
      Hcli Hwizard Hcli_run Hwizard_run.
    rewrite main_steps, Hcli, Hwizard. csimpl. by rewrite Hcli_run, Hwizard_run.
Qed.

Lemma output_order_is_determined_witness :
  main ∅ (enumerated three_locales) repo_script
  = main ∅ (enumerated (reverse three_locales)) repo_script
  ∧ (error_path <$>
       match validate_catalog_dir (enumerated three_locales)
               (cli_dir repo_script) half with
       | Return errs => errs
       | Raise _ => []
       end)
    = [["repo"; "i18n"; "operator_cli"; "de.json"];
       ["repo"; "i18n"; "operator_cli"; "it.json"]].
Proof.
  destruct (output_order_is_determined (enumerated three_locales)
              (enumerated (reverse three_locales))) as (_ & Hmain & _).
  { intros p. unfold enumerated, repo. repeat case_decide; try done.
    all: split; [by rewrite reverse_Permutation|compute_done]. }
  split; [apply Hmain|vm_compute; reflexivity].
Defined.

(** ** Further properties of the script *)

(** *** The verdict on each file *)

Section Verdicts.
Context (fs : filesystem) (path : Path) (max_same_ratio : float).
Context (base : dict string).
Implicit Types (f g : Path) (errs added : list error) (e : error).

Let base_path := joinpath path "en.json".
Let check := check_locale_file fs base (key_set base) (size (key_set base))
               max_same_ratio.

Hypothesis base_loads : load_json fs base_path = Return base.

(** The loop body computes the verdict. *)
Lemma check_verdict f :
  base ≠ [] → verdict fs base max_same_ratio f (check [] f).
Proof using base_loads.
  intros Hkeys. pose proof (load_json_NoDup fs base_path base base_loads) as Hnd.
  destruct (startswith (stem f) "en") eqn:Hen.
  { unfold check. rewrite check_skips_base_language by done. by constructor. }
  destruct (load_json fs f) as [data|e] eqn:Hload.
  2:{ unfold check. rewrite (check_load_fails fs base _ [] f e) by done.
      by constructor. }
  destruct (decide (key_set data = key_set base)) as [Hparity|Hparity].
  2:{ unfold check. rewrite (check_key_mismatch fs base _ f data) by done.
      by econstructor. }
  destruct (check_key_parity fs base max_same_ratio f data)
    as (ratio & Hratio & Hcheck); try done.
  unfold check. rewrite Hcheck.
  destruct (decide (same_values base data = length base)) as [Hall|Hsome].
  - eapply Cloned; try done. by apply same_values_total.
  - pose proof (same_values_le base data).
    destruct (float_gt ratio max_same_ratio) eqn:Hgt.
    + eapply Breached; try done. lia.
    + eapply Passed; try done. lia.
Qed.

(** Where an error of the directory comes from: the empty base, or the check
    of one of the globbed files. *)
Lemma validate_Return_origin errs e :
  validate_catalog_dir fs path max_same_ratio = Return errs → e ∈ errs →
  (base = [] ∧ e = BaseNoKeys base_path)
  ∨ (base ≠ [] ∧ error_path e ∈ glob_json fs path
     ∧ ∃ added, check [] (error_path e) = Return added ∧ e ∈ added).
Proof using base_loads.
  intros Hrun He. destruct (decide (base = [])) as [->|Hkeys].
  - left. split; [done|]. unfold base_path in *.
    rewrite validate_base_no_keys in Hrun by done. injection Hrun as <-.
    by apply list_elem_of_singleton in He.
  - right. split; [done|].
    rewrite (validate_catalog_dir_loop fs path max_same_ratio base) in Hrun by done.
    apply for_each_appends_Return in Hrun as (added & Hall & ->);
      [|apply check_locale_file_appends].
    simpl in He. apply elem_of_concat in He as (a & He & Ha).
    apply list_elem_of_lookup in Ha as [i Hi].
    destruct (Forall2_lookup_r _ _ _ i a Hall Hi) as (g & Hg & Hcheck).
    apply (check_Return fs base max_same_ratio) in Hcheck as Hpaths.
    destruct Hpaths as [Hpaths _]. rewrite Forall_forall in Hpaths.
    destruct (Hpaths e He) as [-> _]. split.
    + rewrite <- elem_of_sorted_paths. by eapply list_elem_of_lookup_2.
    + by exists a.
Qed.

(** The verdict behind an error of the comparison. *)
Lemma locale_error_verdict errs e :
  validate_catalog_dir fs path max_same_ratio = Return errs → e ∈ errs →
  is_locale_error e = true →
  base ≠ [] ∧ error_path e ∈ glob_json fs path
  ∧ verdict fs base max_same_ratio (error_path e) (Return [e]).
Proof using base_loads.
  intros Hrun He Hkind.
  destruct (validate_Return_origin errs e Hrun He)
    as [[_ ->]|(Hkeys & Hglob & added & Hcheck & Hin)]; [done|].
  split_and!; [done..|].
  pose proof (check_verdict (error_path e) Hkeys) as Hverdict.
  rewrite Hcheck in Hverdict.
  assert (added = [e]) as <-; [|done].
  apply (check_Return fs base max_same_ratio) in Hcheck as [_ Hlen].
  destruct added as [|e' [|e'' added]]; [by apply elem_of_nil in Hin| |simpl in Hlen; lia].
  by apply list_elem_of_singleton in Hin as ->.
Qed.

End Verdicts.

(** *** Every reported error is justified *)

Section Soundness.
Context (fs : filesystem) (path : Path) (max_same_ratio : float).
Context (base : dict string) (errs : list error).

Hypothesis base_loads : load_json fs (joinpath path "en.json") = Return base.
Hypothesis returned : validate_catalog_dir fs path max_same_ratio = Return errs.

(** X1. A key mismatch is never a false alarm. An error "key mismatch" in
    the result names a [*.json] file of the directory, outside the base
    language, that loads and whose key set differs from the base's; its
    details are the counts of the keys it lacks and of the keys it adds. *)
Theorem key_mismatch_is_justified (f : Path) (details : list string) :
  KeyMismatch f details ∈ errs →
  f ∈ glob_json fs path ∧ startswith (stem f) "en" = false
  ∧ ∃ data, load_json fs f = Return data
            ∧ key_set data ≠ key_set base
            ∧ details = mismatch_details base data
            ∧ (0 < missing_count base data ∨ 0 < extra_count base data).
Proof using base_loads returned.
  intros Hin.
  destruct (locale_error_verdict fs path max_same_ratio base base_loads errs _
              returned Hin eq_refl) as (_ & Hglob & Hverdict).
  simpl in Hglob, Hverdict. split; [done|].
  inversion Hverdict as [| |data Hen Hload Hkeys| | |]; subst.
  split; [done|]. exists data. split_and!; try done.
  rewrite key_parity in Hkeys.
  destruct (decide (missing_count base data = 0)); [|lia].
  destruct (decide (extra_count base data = 0)); [|lia].
  exfalso. by apply Hkeys.
Qed.

(** X2. A full clone is never a false alarm. An error "full English clone"
    in the result names a locale file that loads, has the key set of the
    base and repeats the value of the base under every key; both counts it
    reports are the number of base keys, which is not zero. *)
Theorem full_clone_is_justified (f : Path) (same key_total : nat) :
  FullClone f same key_total ∈ errs →
  f ∈ glob_json fs path ∧ startswith (stem f) "en" = false
  ∧ same = key_total ∧ key_total = length base ∧ 0 < key_total
  ∧ ∃ data, load_json fs f = Return data
            ∧ key_set data = key_set base
            ∧ (∀ k v, dict_get base k = Some v → dict_get data k = Some v).
Proof using base_loads returned.
  intros Hin.
  destruct (locale_error_verdict fs path max_same_ratio base base_loads errs _
              returned Hin eq_refl) as (Hkeys & Hglob & Hverdict).
  simpl in Hglob, Hverdict. split; [done|].
  inversion Hverdict as [| | |data Hen Hload Hparity Hvalues| |]; subst.
  split_and!; try done.
  - destruct base; [done|simpl; lia].
  - exists data. split_and!; try done.
    intros k v Hget. by apply Hvalues, dict_get_Some_elem.
Qed.

(** X3. A ratio breach is never a false alarm, and its numbers are
    consistent. An error "too many English-identical values" in the result
    names a locale file that loads with the key set of the base; [same] is the
    number of base values it repeats and is below [key_total], the number of
    base keys; the ratio is their quotient as a float; the maximum is the
    threshold of the call, and the ratio is above it. *)
Theorem ratio_breach_is_justified (f : Path) (same key_total : nat)
    (ratio max : float) :
  TooManySame f same key_total ratio max ∈ errs →
  f ∈ glob_json fs path ∧ startswith (stem f) "en" = false
  ∧ max = max_same_ratio ∧ key_total = length base ∧ same < key_total
  ∧ int_truediv same key_total = Some ratio
  ∧ float_gt ratio max_same_ratio = true
  ∧ ∃ data, load_json fs f = Return data
            ∧ key_set data = key_set base
            ∧ same = same_values base data.
Proof using base_loads returned.
  intros Hin.
  destruct (locale_error_verdict fs path max_same_ratio base base_loads errs _
              returned Hin eq_refl) as (_ & Hglob & Hverdict).
  simpl in Hglob, Hverdict. split; [done|].
  inversion Hverdict as [| | | |data r Hen Hload Hparity Hsame Hratio Hgt|]; subst.
  split_and!; try done. by exists data.
Qed.

End Soundness.

(** *** Silence, and what can be raised *)

(** X4. Silence means the file passed. With a base that loads and has keys,
    a [*.json] file of the directory against which the result holds no error
    is a file of the base language, or a locale file that loads with the key
    set of the base, repeats fewer values than there are keys, and whose
    ratio is not above the threshold. *)
Theorem no_error_means_passed (fs : filesystem) (path : Path)
    (max_same_ratio : float) (dir : directory) (base : dict string)
    (errs : list error) (f : Path) :
  fs path = Some dir → NoDup dir.*1 →
  load_json fs (joinpath path "en.json") = Return base → base ≠ [] →
  validate_catalog_dir fs path max_same_ratio = Return errs →
  f ∈ glob_json fs path → errors_for f errs = [] →
  startswith (stem f) "en" = true
  ∨ ∃ data ratio,
      load_json fs f = Return data ∧ key_set data = key_set base
      ∧ same_values base data < length base
      ∧ int_truediv (same_values base data) (length base) = Some ratio
      ∧ float_gt ratio max_same_ratio = false.
Proof.
  intros Hdir Hnames Hbase Hkeys Hrun Hglob Hnone.
  pose proof (validate_Return_files fs path max_same_ratio base Hbase Hkeys errs f
                (glob_json_NoDup fs path dir Hdir Hnames) Hrun Hglob) as Hcheck.
  pose proof (check_verdict fs path max_same_ratio base Hbase f Hkeys) as Hverdict.
  rewrite Hcheck, Hnone in Hverdict.
  inversion Hverdict as [Hen| | | | |data ratio Hen Hload Hparity Hsame Hratio Hgt];
    subst; [by left|right]. by exists data, ratio.
Qed.


Section FirstFailure.
Context {A E : Type} (body : list E → A → result (list E)).
Hypothesis body_appends :
  ∀ acc x, body acc x = (λ added, acc ++ added) <$> body [] x.

(** A loop that appends raises what its body raises on the first element on
    which it raises. *)
Lemma for_each_appends_Raise_first (xs : list A) (acc : list E) (e : exn) :
  for_each xs body acc = Raise e ↔
  ∃ before x after,
    xs = before ++ x :: after
    ∧ Forall (λ y, ∃ a, body [] y = Return a) before
    ∧ body [] x = Raise e.
Proof using body_appends.
  revert acc. induction xs as [|x xs IH]; intros acc; simpl.
  - split; [done|]. intros (before & y & after & Hxs & _). by destruct before.
  - rewrite body_appends. destruct (body [] x) as [a|e'] eqn:Hx; simpl.
    + rewrite IH. split.
      * intros (before & y & after & -> & Hall & Hy).
        exists (x :: before), y, after. split_and!; [done| |done].
        constructor; [by exists a|done].
      * intros (before & y & after & Hxs & Hall & Hy).
        destruct before as [|x' before]; simplify_eq/=; [congruence|].
        apply Forall_cons in Hall as [_ Hall]. by exists before, y, after.
    + split.
      * intros [= ->]. exists [], x, xs. by split_and!.
      * intros (before & y & after & Hxs & Hall & Hy).
        destruct before as [|x' before]; simplify_eq/=; [congruence|].
        apply Forall_cons in Hall as [[a Ha] _]. congruence.
Qed.

End FirstFailure.

(** X6. Which failure is reported. With a base that loads and has keys, the
    check of the directory raises [e] exactly when [load_json] raises [e] on
    a locale file outside the base language and every file before it in the
    sorted order is of the base language or loads: the first bad file, in
    the order of the names, decides, and the files after it are not
    opened. *)
Theorem first_unloadable_file_decides (fs : filesystem) (path : Path)
    (max_same_ratio : float) (base : dict string) (e : exn) :
  load_json fs (joinpath path "en.json") = Return base → base ≠ [] →
  (validate_catalog_dir fs path max_same_ratio = Raise e ↔
   ∃ before f after,
     sorted_paths (glob_json fs path) = before ++ f :: after
     ∧ Forall (λ g, startswith (stem g) "en" = true
                    ∨ ∃ data, load_json fs g = Return data) before
     ∧ startswith (stem f) "en" = false ∧ load_json fs f = Raise e).
Proof.
  intros Hbase Hkeys.
  rewrite (validate_catalog_dir_loop fs path max_same_ratio base Hbase Hkeys).
  rewrite for_each_appends_Raise_first by apply check_locale_file_appends.
  assert (∀ g, (∃ a, check_locale_file fs base (key_set base) (size (key_set base))
                       max_same_ratio [] g = Return a)
               ↔ startswith (stem g) "en" = true
                 ∨ ∃ data, load_json fs g = Return data) as Hreturns.
  { intros g.
    pose proof (check_verdict fs path max_same_ratio base Hbase g Hkeys) as Hverdict.
    split.
    - intros [a Ha]. rewrite Ha in Hverdict.
      inversion Hverdict; subst; eauto.
    - intros [Hen|[data Hload]].
      + exists []. by apply check_skips_base_language.
      + inversion Hverdict; subst; try (by eexists); congruence. }
  assert (∀ g, check_locale_file fs base (key_set base) (size (key_set base))
                 max_same_ratio [] g = Raise e
               ↔ startswith (stem g) "en" = false ∧ load_json fs g = Raise e)
    as Hraises.
  { intros g. split.
    - apply check_Raise; [by apply (load_json_NoDup fs (joinpath path "en.json"))|done].
    - intros [Hen Hload]. by apply check_load_fails. }
  split; intros (before & f & after & Hsorted & Hall & Hf);
    exists before, f, after; (split_and!; [done| |by apply Hraises..]).
  - eapply Forall_impl; [exact Hall|]. intros g. apply Hreturns.
  - eapply Forall_impl; [exact Hall|]. intros g. apply Hreturns.
Qed.

(** *** The part the threshold plays *)

Section Thresholds.
Context (fs : filesystem) (base : dict string) (base_keys : gset string)
  (key_total : nat) (ratio1 ratio2 : float).

Lemma check_same_but_ratio (errors1 errors2 : list error) (g : Path) :
  same_but_ratio (Return errors1) (Return errors2) →
  same_but_ratio
    (check_locale_file fs base base_keys key_total ratio1 errors1 g)
    (check_locale_file fs base base_keys key_total ratio2 errors2 g).
Proof.
  unfold same_but_ratio at 1. intros Hsame. unfold check_locale_file.
  destruct (startswith (stem g) "en"); csimpl; [done|].
  destruct (load_json fs g) as [data|e]; csimpl; [|done].
  destruct (_ || _); csimpl.
  { rewrite !filter_app, Hsame. done. }
  destruct (count_same _ _ _) as [same|e]; csimpl; [|done].
  destruct (same =? key_total); csimpl.
  { rewrite !filter_app, Hsame. done. }
  destruct (truediv same key_total) as [ratio|e]; csimpl; [|done].
  destruct (float_gt ratio ratio1), (float_gt ratio ratio2); csimpl;
    rewrite ?filter_app, ?filter_cons_False, ?filter_nil, ?app_nil_r by (by simpl);
    done.
Qed.

Lemma for_each_same_but_ratio (files : list Path) (errors1 errors2 : list error) :
  same_but_ratio (Return errors1) (Return errors2) →
  same_but_ratio
    (for_each files (check_locale_file fs base base_keys key_total ratio1) errors1)
    (for_each files (check_locale_file fs base base_keys key_total ratio2) errors2).
Proof.
  revert errors1 errors2. induction files as [|g files IH]; intros errors1 errors2 Hsame;
    [done|].
  simpl. pose proof (check_same_but_ratio errors1 errors2 g Hsame) as Hstep.
  destruct (check_locale_file fs base base_keys key_total ratio1 errors1 g),
    (check_locale_file fs base base_keys key_total ratio2 errors2 g);
    csimpl; try done.
  by apply IH.
Qed.

End Thresholds.

(** X7. The threshold decides the ratio breaches and nothing else. For two
    thresholds, the checks of one directory raise together, and then the same
    exception, or return together, and then the same errors in the same
    order once the ratio-breach errors are left out: missing base, empty
    base, key mismatches and full clones do not depend on the threshold. *)
Theorem threshold_only_moves_ratio_errors (fs : filesystem) (path : Path)
    (ratio1 ratio2 : float) :
  same_but_ratio (validate_catalog_dir fs path ratio1)
                 (validate_catalog_dir fs path ratio2).
Proof.
  unfold validate_catalog_dir.
  destruct (path_exists fs (joinpath path "en.json")); csimpl; [|done].
  destruct (load_json fs (joinpath path "en.json")) as [base|e]; csimpl; [|done].
  destruct (size (key_set base) =? 0); [done|].
  by apply for_each_same_but_ratio.
Qed.

(** X8. A threshold of NaN switches the ratio test off. [parse_ratio] returns
    NaN for a value that [float] reads as NaN, since NaN is neither below 0.0
    nor above 1.0; and under that threshold no directory ever gets a
    ratio-breach error, whatever its files hold. *)
Theorem nan_threshold_disables_ratio_test (env : environ) (env_name raw : string)
    (default : float) :
  getenv env env_name = Some raw → float_of_string raw = Some S754_nan →
  strip raw ≠ "" →
  parse_ratio env env_name default = Return S754_nan
  ∧ ∀ (fs : filesystem) (path : Path) (errs : list error) (e : error),
      validate_catalog_dir fs path S754_nan = Return errs → e ∈ errs →
      is_ratio_breach e = false.
Proof.
  intros Hraw Hnan Hblank. split.
  - unfold parse_ratio. rewrite Hraw, Hnan.
    by destruct (String.eqb_spec (strip raw) "").
  - intros fs path errs e Hrun He.
    destruct (is_ratio_breach e) eqn:Hbreach; [|done]. exfalso.
    destruct e as [| | | |f same key_total ratio max]; try done.
    destruct (load_json fs (joinpath path "en.json")) as [base|x] eqn:Hbase.
    + destruct (locale_error_verdict fs path S754_nan base Hbase errs _ Hrun He
                  eq_refl) as (_ & _ & Hverdict).
      inversion Hverdict as [| | | |data r Hen Hload Hparity Hsame Hratio Hgt|];
        subst. done.
    + unfold validate_catalog_dir in Hrun. rewrite Hbase in Hrun.
      destruct (path_exists fs _); [done|]. injection Hrun as <-.
      by apply list_elem_of_singleton in He.
Qed.

Section FloatOrder.

Lemma compare_magnitude_spec e1 m1 e2 m2 :
  match compare_magnitude e1 m1 e2 m2 with
  | Lt => (e1 < e2 ∨ e1 = e2 ∧ (m1 < m2)%positive)%Z
  | Eq => e1 = e2 ∧ m1 = m2
  | Gt => (e2 < e1 ∨ e1 = e2 ∧ (m2 < m1)%positive)%Z
  end.
Proof.
  unfold compare_magnitude. destruct (Z.compare_spec e1 e2); auto.
  change (Pos.compare_cont Eq m1 m2) with (Pos.compare m1 m2).
  destruct (Pos.compare_spec m1 m2); auto.
Qed.

Lemma compare_magnitude_negative e1 m1 e2 m2 :
  match Z.compare e1 e2 with
  | Lt => Gt
  | Gt => Lt
  | Eq => CompOpp (Pos.compare_cont Eq m1 m2)
  end = CompOpp (compare_magnitude e1 m1 e2 m2).
Proof. unfold compare_magnitude. by destruct (Z.compare e1 e2). Qed.

(** [a <= b] and [b < c] give [a < c], on all floats. *)
Lemma float_le_lt_trans (a b c : float) :
  float_le a b = true → float_lt b c = true → float_lt a c = true.
Proof.
  unfold float_le, float_lt, SFleb, SFltb.
  destruct a as [sa|sa| |sa ma ea], b as [sb|sb| |sb mb eb], c as [sc|sc| |sc mc ec];
    simpl; try discriminate; try reflexivity;
    try (destruct sa, sb, sc; simpl; (discriminate || reflexivity)).
  all: destruct sa, sb, sc; simpl; try discriminate; try reflexivity.
  all: rewrite ?compare_magnitude_negative;
    fold (compare_magnitude ea ma eb mb) (compare_magnitude eb mb ec mc)
         (compare_magnitude ea ma ec mc).
  all: pose proof (compare_magnitude_spec ea ma eb mb);
    pose proof (compare_magnitude_spec eb mb ec mc);
    pose proof (compare_magnitude_spec ea ma ec mc).
  all: destruct (compare_magnitude ea ma eb mb), (compare_magnitude eb mb ec mc),
         (compare_magnitude ea ma ec mc);
    simpl; try discriminate; try reflexivity; intros _ _; exfalso; lia.
Qed.

End FloatOrder.

Section Loosening.
Context (fs : filesystem) (base : dict string) (base_keys : gset string)
  (key_total : nat) (strict loose : float).
Hypothesis looser : float_le strict loose = true.

Lemma check_loosened (errors1 errors2 : list error) (g : Path) :
  loosened loose (Return errors1) (Return errors2) →
  loosened loose
    (check_locale_file fs base base_keys key_total strict errors1 g)
    (check_locale_file fs base base_keys key_total loose errors2 g).
Proof using looser.
  unfold loosened at 1. intros Hsub. unfold check_locale_file.
  destruct (startswith (stem g) "en"); csimpl; [done|].
  destruct (load_json fs g) as [data|e]; csimpl; [|done].
  destruct (_ || _); csimpl.
  { rewrite fmap_app. by apply sublist_app. }
  destruct (count_same _ _ _) as [same|e]; csimpl; [|done].
  destruct (same =? key_total); csimpl.
  { rewrite fmap_app. by apply sublist_app. }
  destruct (truediv same key_total) as [ratio|e]; csimpl; [|done].
  destruct (float_gt ratio strict) eqn:Hstrict, (float_gt ratio loose) eqn:Hloose;
    csimpl; rewrite ?fmap_app.
  - by apply sublist_app.
  - by apply sublist_inserts_r.
  - unfold float_gt in *. fold (float_lt loose ratio) in Hloose.
    fold (float_lt strict ratio) in Hstrict.
    rewrite (float_le_lt_trans strict loose ratio) in Hstrict; done.
  - done.
Qed.

Lemma for_each_loosened (files : list Path) (errors1 errors2 : list error) :
  loosened loose (Return errors1) (Return errors2) →
  loosened loose
    (for_each files (check_locale_file fs base base_keys key_total strict) errors1)
    (for_each files (check_locale_file fs base base_keys key_total loose) errors2).
Proof using looser.
  revert errors1 errors2. induction files as [|g files IH]; intros errors1 errors2 Hsub;
    [done|].
  simpl. pose proof (check_loosened errors1 errors2 g Hsub) as Hstep.
  destruct (check_locale_file fs base base_keys key_total strict errors1 g),
    (check_locale_file fs base base_keys key_total loose errors2 g);
    csimpl; try done.
  by apply IH.
Qed.

End Loosening.

(** X9. A looser threshold only removes errors. When [strict <= loose], the
    checks of one directory under the two thresholds raise the same
    exception, or both return, and then the errors under [loose] are some of
    the errors under [strict], in the same order, a ratio breach quoting
    [loose] as its maximum: raising the threshold never adds an error. *)
Theorem looser_threshold_removes_errors (fs : filesystem) (path : Path)
    (strict loose : float) :
  float_le strict loose = true →
  loosened loose (validate_catalog_dir fs path strict)
                 (validate_catalog_dir fs path loose).
Proof.
  intros Hle. unfold validate_catalog_dir.
  destruct (path_exists fs (joinpath path "en.json")); csimpl; [|done].
  destruct (load_json fs (joinpath path "en.json")) as [base|e]; csimpl; [|done].
  destruct (size (key_set base) =? 0); [simpl; reflexivity|].
  apply for_each_loosened; [exact Hle|simpl; reflexivity].
Qed.

(** *** What the check of a directory looks at *)

(** The check of a directory reads that directory and nothing else. *)
Lemma validate_catalog_dir_ext (fs1 fs2 : filesystem) (path : Path) (ratio : float) :
  fs1 path = fs2 path →
  validate_catalog_dir fs1 path ratio = validate_catalog_dir fs2 path ratio.
Proof.
  intros Hsame.
  assert (∀ n, lookup_file fs1 (joinpath path n) = lookup_file fs2 (joinpath path n))
    as Hlookup by (intros n; by rewrite !lookup_file_joinpath, Hsame).
  assert (∀ n, load_json fs1 (joinpath path n) = load_json fs2 (joinpath path n))
    as Hload by (intros n; unfold load_json, open_and_load; by rewrite Hlookup).
  assert (glob_json fs1 path = glob_json fs2 path) as Hglob
    by (unfold glob_json; by rewrite Hsame).
  unfold validate_catalog_dir, path_exists. rewrite Hlookup, Hload, Hglob.
  destruct (bool_decide _); csimpl; [|done].
  destruct (load_json fs2 _) as [base|]; csimpl; [|done].
  destruct (size (key_set base) =? 0); [done|].
  apply for_each_ext. intros g errors Hg. apply check_locale_file_load.
  rewrite elem_of_sorted_paths in Hg. unfold glob_json in Hg.
  destruct (fs2 path) as [d|]; [|by apply elem_of_nil in Hg].
  apply list_elem_of_fmap in Hg as (m & -> & _). apply Hload.
Qed.

(** X10. Entries that are not [*.json] are ignored. Replacing the contents of
    a directory entry whose name does not end in [.json] changes neither the
    outcome of the check of that directory nor the outcome of [main]: such
    an entry is never opened. *)
Theorem other_entries_are_ignored (fs : filesystem) (path : Path) (n : string)
    (c : file) :
  endswith n ".json" = false →
  (∀ ratio, validate_catalog_dir (replace_entry fs path n c) path ratio
            = validate_catalog_dir fs path ratio)
  ∧ (∀ env script, main env (replace_entry fs path n c) script = main env fs script).
Proof.
  intros Hother.
  assert (n ≠ "en.json") as Hbase by (intros ->; done).
  assert (∀ ratio, validate_catalog_dir (replace_entry fs path n c) path ratio
                   = validate_catalog_dir fs path ratio) as Hhere.
  { intros ratio. unfold validate_catalog_dir.
    rewrite replace_entry_exists, replace_entry_load, replace_entry_glob by done.
    destruct (path_exists fs (joinpath path "en.json")); csimpl; [|done].
    destruct (load_json fs (joinpath path "en.json")) as [base|]; csimpl; [|done].
    destruct (size (key_set base) =? 0); [done|].
    apply for_each_ext. intros g errors Hg. apply check_locale_file_load.
    rewrite elem_of_sorted_paths in Hg. unfold glob_json in Hg.
    destruct (fs path) as [d|]; [|by apply elem_of_nil in Hg].
    apply list_elem_of_fmap in Hg as (m & -> & [Hjson _]%list_elem_of_filter).
    apply replace_entry_load. intros ->. congruence. }
  assert (∀ dir ratio, validate_catalog_dir (replace_entry fs path n c) dir ratio
                       = validate_catalog_dir fs dir ratio) as Heverywhere.
  { intros dir ratio. destruct (decide (dir = path)) as [->|Hne]; [apply Hhere|].
    apply validate_catalog_dir_ext. unfold replace_entry. by rewrite decide_False. }
  split; [done|]. intros env script. rewrite !main_steps.
  destruct (parse_ratio env _ default_cli) as [cli_ratio|]; csimpl; [|done].
  destruct (parse_ratio env _ default_wizard) as [wizard_ratio|]; csimpl; [|done].
  by rewrite !Heverywhere.
Qed.

(** X11. A directory without locale files passes. With a base that loads and
    has keys, if every [*.json] file of the directory is of the base language
    (the base itself, regional variants), the check returns no error, and
    none of those files but the base is opened. *)
Theorem base_language_only_passes (fs : filesystem) (path : Path)
    (max_same_ratio : float) (base : dict string) :
  load_json fs (joinpath path "en.json") = Return base → base ≠ [] →
  (∀ g, g ∈ glob_json fs path → startswith (stem g) "en" = true) →
  validate_catalog_dir fs path max_same_ratio = Return [].
Proof.
  intros Hbase Hkeys Honly.
  rewrite (validate_catalog_dir_loop fs path max_same_ratio base Hbase Hkeys).
  assert (∀ files : list Path,
            (∀ g, g ∈ files → startswith (stem g) "en" = true) →
            for_each files
              (check_locale_file fs base (key_set base) (size (key_set base))
                 max_same_ratio) [] = Return []) as Hloop.
  { induction files as [|g files IH]; intros Hall; [done|]. simpl.
    rewrite check_skips_base_language by (apply Hall; by left). csimpl.
    apply IH. intros g' Hg'. apply Hall. by right. }
  apply Hloop. intros g Hg. apply Honly. by rewrite <- elem_of_sorted_paths.
Qed.


(** *** The threshold that is resolved *)

(** A float that is not above another is below it or equal to it, unless one
    of them is NaN. *)
Lemma float_not_gt_le (a b : float) :
  float_gt a b = false → a = S754_nan ∨ b = S754_nan ∨ float_le a b = true.
Proof.
  unfold float_gt, float_le, SFleb, SFltb.
  destruct a as [sa|sa| |sa ma ea], b as [sb|sb| |sb mb eb]; simpl; auto;
    try (destruct sa, sb; simpl; auto; discriminate).
  destruct sa, sb; simpl; auto; try discriminate.
  all: rewrite ?compare_magnitude_negative;
    fold (compare_magnitude ea ma eb mb) (compare_magnitude eb mb ea ma).
  all: pose proof (compare_magnitude_spec ea ma eb mb);
    pose proof (compare_magnitude_spec eb mb ea ma).
  all: destruct (compare_magnitude ea ma eb mb), (compare_magnitude eb mb ea ma);
    simpl; auto; try discriminate; intros _; exfalso; lia.
Qed.

(** X13. The threshold that is resolved. When [parse_ratio] returns, either
    the variable is unset or blank and the value is the default, or the
    variable holds a text that [float] reads, and the value read is NaN or
    lies between 0.0 and 1.0, bounds included. *)
Theorem resolved_threshold_range (env : environ) (env_name : string)
    (default value : float) :
  parse_ratio env env_name default = Return value →
  ((getenv env env_name = None
    ∨ ∃ raw, getenv env env_name = Some raw ∧ strip raw = "")
   ∧ value = default)
  ∨ ∃ raw, getenv env env_name = Some raw ∧ strip raw ≠ ""
           ∧ float_of_string raw = Some value
           ∧ (value = S754_nan
              ∨ float_le float_zero value = true ∧ float_le value float_one = true).
Proof.
  unfold parse_ratio. destruct (getenv env env_name) as [raw|];
    [|intros [= <-]; left; split; [by left|done]].
  destruct (String.eqb_spec (strip raw) "") as [Hblank|Hblank];
    [intros [= <-]; left; split; [right; by exists raw|done]|].
  destruct (float_of_string raw) as [v|] eqn:Hfloat; [|done].
  destruct (float_lt v float_zero) eqn:Hlow; [done|].
  destruct (float_gt v float_one) eqn:Hhigh; [done|].
  intros [= <-]. right. exists raw. split_and!; try done.
  destruct (float_not_gt_le float_zero v Hlow) as [?|[?|?]]; [done|by left|].
  destruct (float_not_gt_le v float_one Hhigh) as [?|[?|?]]; [by left|done|].
  by right.
Qed.

(** *** Catalogs as mappings *)

Section DictsAsMaps.
Context {V : Type}.
Implicit Types (d : dict V) (k : string) (v : V).

Lemma dict_get_dict_set d k v k' :
  dict_get (dict_set d k v) k' = if String.eqb k' k then Some v else dict_get d k'.
Proof.
  induction d as [|[k0 v0] d IH]; csimpl; [done|].
  destruct (String.eqb_spec k k0) as [->|Hne]; csimpl.
  - by destruct (String.eqb k' k0).
  - rewrite IH. destruct (String.eqb_spec k' k0) as [->|_]; [|done].
    by destruct (String.eqb_spec k0 k).
Qed.

Lemma dict_get_snoc d k v k' :
  dict_get (d ++ [(k, v)]) k'
  = match dict_get d k' with
    | Some v' => Some v'
    | None => if String.eqb k' k then Some v else None
    end.
Proof.
  induction d as [|[k0 v0] d IH]; csimpl; [done|].
  by destruct (String.eqb k' k0).
Qed.

(** [dict(pairs)[k]] is the value of the last pair with the key [k]. *)
Lemma dict_get_dict_of_pairs (pairs : list (string * V)) k :
  dict_get (dict_of_pairs pairs) k = dict_get (reverse pairs) k.
Proof.
  unfold dict_of_pairs.
  assert (∀ acc : dict V,
            dict_get (fold_left (λ d kv, dict_set d kv.1 kv.2) pairs acc) k
            = match dict_get (reverse pairs) k with
              | Some v => Some v
              | None => dict_get acc k
              end) as Hgen.
  { induction pairs as [|[k0 v0] pairs IH]; intros acc; csimpl; [done|].
    rewrite IH, reverse_cons, dict_get_snoc, dict_get_dict_set.
    destruct (dict_get (reverse pairs) k); [done|].
    by destruct (String.eqb k k0). }
  rewrite Hgen. by destruct (dict_get (reverse pairs) k).
Qed.

Lemma dict_set_fresh d k v : k ∉ d.*1 → dict_set d k v = d ++ [(k, v)].
Proof.
  induction d as [|[k0 v0] d IH]; csimpl; [done|].
  intros [Hne Hnin]%not_elem_of_cons.
  destruct (String.eqb_spec k k0); [done|]. by rewrite IH.
Qed.

(** Pairs with distinct keys make the dictionary of those pairs, in their
    order. *)
Lemma dict_of_pairs_NoDup_id (pairs : list (string * V)) :
  NoDup pairs.*1 → dict_of_pairs pairs = pairs.
Proof.
  unfold dict_of_pairs.
  assert (∀ acc : dict V,
            NoDup (acc ++ pairs).*1 →
            fold_left (λ d kv, dict_set d kv.1 kv.2) pairs acc = acc ++ pairs)
    as Hgen.
  { induction pairs as [|[k0 v0] pairs IH]; intros acc Hnd; csimpl.
    - by rewrite app_nil_r.
    - rewrite dict_set_fresh.
      + rewrite IH; [by rewrite <- app_assoc|]. by rewrite <- app_assoc.
      + rewrite fmap_app in Hnd. apply NoDup_app in Hnd as (_ & Hnin & _).
        intros Hin. apply (Hnin k0 Hin). csimpl. by left. }
  intros Hnd. by apply (Hgen []).
Qed.

End DictsAsMaps.


(** X14. The last member of a name decides. For a file that holds a JSON
    object, [load_json] looks at each name's last member only: it returns
    when every such member is a string, and then maps each name to that
    string; it raises when some name's last member is not a string. An
    earlier member of the same name, string or not, plays no part. *)
Theorem last_member_decides (fs : filesystem) (p : Path) (members : dict json) :
  lookup_file fs p = Some (Contents (JObject members)) →
  match load_json fs p with
  | Return d =>
      (∀ k v, dict_get (reverse members) k = Some v → is_str v = true)
      ∧ (∀ k s, dict_get d k = Some s
                ↔ dict_get (reverse members) k = Some (JString s))
      ∧ (∀ k, dict_get d k = None ↔ dict_get (reverse members) k = None)
  | Raise e =>
      ∃ k v, dict_get (reverse members) k = Some v ∧ is_str v = false
  end.
Proof.
  intros Hfile. destruct (load_json fs p) as [d|e] eqn:Hload.
  - apply load_json_Return in Hload as (members' & Hfile' & Hall & ->).
    assert (members' = members) as -> by congruence. split_and!.
    + intros k v Hget. rewrite <- dict_get_dict_of_pairs in Hget.
      apply dict_get_Some_elem in Hget. unfold all_strings in Hall.
      rewrite Forall_forall in Hall. by apply (Hall (k, v)).
    + intros k s. by rewrite str_items_get, dict_get_dict_of_pairs.
    + intros k. rewrite <- dict_get_dict_of_pairs, !dict_get_None.
      by rewrite str_items_keys.
  - unfold load_json, open_and_load in Hload. rewrite Hfile in Hload.
    cbv zeta in Hload.
    destruct (filter _ (dict_of_pairs members)) as [|[k v] rest] eqn:Hfilter;
      [done|].
    assert ((k, v) ∈ filter (λ kv : string * json, is_str kv.2 = false)
              (dict_of_pairs members)) as Hin by (rewrite Hfilter; by left).
    apply list_elem_of_filter in Hin as [Hstr Hin]. exists k, v. split; [|done].
    rewrite <- dict_get_dict_of_pairs.
    apply dict_get_elem_Some; [apply dict_of_pairs_NoDup|done].
Qed.

(** A catalog file loads as the dictionary of its items. *)
Lemma load_json_catalog (fs : filesystem) (p : Path) (items : dict string) :
  lookup_file fs p = Some (catalog items) → NoDup items.*1 →
  load_json fs p = Return items.
Proof.
  intros Hfile Hnd. apply load_json_Return.
  exists (prod_map id JString <$> items). split; [done|].
  assert ((prod_map id JString <$> items).*1 = items.*1) as Hkeys.
  { rewrite <- list_fmap_compose. by apply list_fmap_ext; intros ? []. }
  rewrite dict_of_pairs_NoDup_id by by rewrite Hkeys. split.
  - unfold all_strings. apply Forall_fmap, Forall_true. by intros [].
  - unfold str_items. clear. induction items as [|[k s] items IH]; csimpl; [done|].
    by rewrite <- IH.
Qed.

Section ReplaceSame.
Context (fs : filesystem) (path : Path) (n : string) (c : file).

Lemma replace_entry_lookup_same :
  is_Some (lookup_file fs (joinpath path n)) →
  lookup_file (replace_entry fs path n c) (joinpath path n) = Some c.
Proof.
  rewrite !lookup_file_joinpath. unfold replace_entry.
  rewrite decide_True by done.
  destruct (fs path) as [d|]; csimpl; [|by intros [? ?]].
  unfold find_entry. induction d as [|[m x] d IH]; csimpl; [by intros [? ?]|].
  destruct (String.eqb_spec m n) as [->|Hne]; csimpl.
  - by rewrite String.eqb_refl.
  - destruct (String.eqb_spec n m) as [->|_]; [done|apply IH].
Qed.

End ReplaceSame.

Section Mappings.
Implicit Types (base data : dict string).

Lemma key_set_perm {V : Type} (d1 d2 : dict V) : d1 ≡ₚ d2 → key_set d1 = key_set d2.
Proof. intros Hperm. unfold key_set. by rewrite Hperm. Qed.

Lemma count_same_perm base1 base2 data1 data2 keys :
  base1 ≡ₚ base2 → NoDup base1.*1 → data1 ≡ₚ data2 → NoDup data1.*1 →
  count_same base1 data1 keys = count_same base2 data2 keys.
Proof.
  intros Hbase Hnd_base Hdata Hnd_data.
  induction keys as [|k keys IH]; [done|]. simpl. unfold getitem.
  by rewrite IH, (dict_get_perm data1 data2), (dict_get_perm base1 base2).
Qed.

(** The check of a file sees the base and the locale as mappings. *)
Lemma check_locale_file_perm (fs1 fs2 : filesystem) base1 base2
    (ratio : float) (errors : list error) (g : Path) :
  base1 ≡ₚ base2 → NoDup base1.*1 →
  same_catalog (load_json fs1 g) (load_json fs2 g) →
  check_locale_file fs1 base1 (key_set base1) (size (key_set base1)) ratio errors g
  = check_locale_file fs2 base2 (key_set base2) (size (key_set base2)) ratio errors g.
Proof.
  intros Hbase Hnd Hload. rewrite (key_set_perm base1 base2 Hbase).
  unfold check_locale_file. destruct (startswith (stem g) "en"); [done|].
  destruct (load_json fs1 g) as [data1|e1] eqn:Hload1,
           (load_json fs2 g) as [data2|e2]; simpl in Hload; try done;
    [|by subst].
  csimpl. rewrite (key_set_perm data1 data2 Hload).
  rewrite (count_same_perm base1 base2 data1 data2);
    [done..|by apply (load_json_NoDup fs1 g)].
Qed.

(** The check of a directory sees its catalogs as mappings. *)
Lemma validate_catalog_dir_perm (fs1 fs2 : filesystem) (path : Path)
    (ratio : float) :
  glob_json fs1 path = glob_json fs2 path →
  path_exists fs1 (joinpath path "en.json") = path_exists fs2 (joinpath path "en.json") →
  (∀ m, same_catalog (load_json fs1 (joinpath path m))
                     (load_json fs2 (joinpath path m))) →
  validate_catalog_dir fs1 path ratio = validate_catalog_dir fs2 path ratio.
Proof.
  intros Hglob Hexists Hload. unfold validate_catalog_dir.
  rewrite Hglob, Hexists.
  destruct (path_exists fs2 (joinpath path "en.json")); csimpl; [|done].
  pose proof (Hload "en.json") as Hbase.
  destruct (load_json fs1 (joinpath path "en.json")) as [base1|e1] eqn:Hbase1,
           (load_json fs2 (joinpath path "en.json")) as [base2|e2];
    simpl in Hbase; try done; [|by subst].
  csimpl. rewrite (key_set_perm base1 base2 Hbase).
  destruct (size (key_set base2) =? 0); [done|].
  rewrite <- (key_set_perm base1 base2 Hbase) at 2.
  apply for_each_ext. intros g errors Hg.
  rewrite <- (key_set_perm base1 base2 Hbase) at 1.
  apply check_locale_file_perm;
    [done|by apply (load_json_NoDup fs1 (joinpath path "en.json"))|].
  rewrite elem_of_sorted_paths in Hg. unfold glob_json in Hg.
  destruct (fs2 path) as [d|]; [|by apply elem_of_nil in Hg].
  apply list_elem_of_fmap in Hg as (m & -> & _). apply Hload.
Qed.

End Mappings.

Lemma same_catalog_refl (r : result (dict string)) : same_catalog r r.
Proof. destruct r; simpl; reflexivity. Qed.

(** X15. The order of the items of a catalog does not matter. Writing the
    items of a catalog file, a locale's or the base's, in another order
    changes neither the outcome of the check of its directory, errors and
    their numbers included, nor the outcome of [main]. *)
Theorem item_order_is_irrelevant (fs : filesystem) (path : Path) (n : string)
    (items items' : dict string) :
  lookup_file fs (joinpath path n) = Some (catalog items) →
  NoDup items.*1 → items ≡ₚ items' →
  (∀ ratio, validate_catalog_dir (replace_entry fs path n (catalog items')) path ratio
            = validate_catalog_dir fs path ratio)
  ∧ (∀ env script, main env (replace_entry fs path n (catalog items')) script
                   = main env fs script).
Proof.
  intros Hfile Hnd Hperm.
  assert (NoDup items'.*1) as Hnd' by by rewrite <- Hperm.
  assert (lookup_file (replace_entry fs path n (catalog items')) (joinpath path n)
          = Some (catalog items')) as Hfile'
    by (apply replace_entry_lookup_same; by rewrite Hfile).
  assert (∀ ratio, validate_catalog_dir (replace_entry fs path n (catalog items'))
                     path ratio = validate_catalog_dir fs path ratio) as Hhere.
  { intros ratio. apply validate_catalog_dir_perm.
    - apply replace_entry_glob.
    - destruct (decide ("en.json" = n)) as [<-|Hne].
      + unfold path_exists. by rewrite Hfile, Hfile'.
      + by apply replace_entry_exists.
    - intros m. destruct (decide (m = n)) as [->|Hne].
      + rewrite (load_json_catalog _ _ items'), (load_json_catalog _ _ items)
          by done. simpl. by symmetry.
      + rewrite replace_entry_load by done. apply same_catalog_refl. }
  split; [done|]. intros env script. rewrite !main_steps.
  destruct (parse_ratio env _ default_cli) as [cli_ratio|]; csimpl; [|done].
  destruct (parse_ratio env _ default_wizard) as [wizard_ratio|]; csimpl; [|done].
  assert (∀ dir ratio,
            validate_catalog_dir (replace_entry fs path n (catalog items')) dir ratio
            = validate_catalog_dir fs dir ratio) as Heverywhere.
  { intros dir ratio. destruct (decide (dir = path)) as [->|Hne]; [apply Hhere|].
    apply validate_catalog_dir_ext. unfold replace_entry. by rewrite decide_False. }
  by rewrite !Heverywhere.
Qed.

(** *** The shape of the result *)

(** X16. At most one error a file. The errors that the check of a directory
    returns name pairwise distinct paths; each path is the path of the base
    catalog or of a [*.json] entry of the directory, so that no file ever
    gets two errors and no error names a file elsewhere. *)
Theorem one_error_per_file (fs : filesystem) (path : Path) (ratio : float)
    (dir : directory) (errs : list error) :
  fs path = Some dir → NoDup dir.*1 →
  validate_catalog_dir fs path ratio = Return errs →
  NoDup (error_path <$> errs)
  ∧ (∀ f, length (errors_for f errs) ≤ 1)
  ∧ (∀ e, e ∈ errs →
       ∃ n, error_path e = joinpath path n ∧ endswith n ".json" = true
            ∧ (n = "en.json" ∨ n ∈ dir.*1)).
Proof.
  intros Hdir Hnames Hrun.
  assert (NoDup (error_path <$> errs)
          ∧ ∀ e, e ∈ errs →
              ∃ n, error_path e = joinpath path n ∧ endswith n ".json" = true
                   ∧ (n = "en.json" ∨ n ∈ dir.*1)) as [Hnd Hpaths].
  { assert (∀ e : error,
              error_path e = joinpath path "en.json" →
              NoDup (error_path <$> [e])
              ∧ ∀ e', e' ∈ [e] →
                  ∃ n, error_path e' = joinpath path n ∧ endswith n ".json" = true
                       ∧ (n = "en.json" ∨ n ∈ dir.*1)) as Hone.
    { intros e He. split; [apply NoDup_singleton|].
      intros e' ->%list_elem_of_singleton. exists "en.json".
      split_and!; [done|done|by left]. }
    destruct (path_exists fs (joinpath path "en.json")) eqn:Hexists.
    - destruct (load_json fs (joinpath path "en.json")) as [base|x] eqn:Hbase.
      + destruct (decide (base = [])) as [->|Hkeys].
        * rewrite validate_base_no_keys in Hrun by done.
          injection Hrun as <-. by apply Hone.
        * pose proof (validate_Return_sorted fs path ratio base Hbase Hkeys errs Hrun)
            as Hsub.
          assert (NoDup (sorted_paths (glob_json fs path))) as Hglob.
          { rewrite sorted_paths_perm. by apply (glob_json_NoDup fs path dir). }
          split; [by eapply sublist_NoDup|].
          intros e He.
          assert (error_path e ∈ glob_json fs path) as Hin.
          { rewrite <- elem_of_sorted_paths. eapply elem_of_sublist; [|exact Hsub].
            apply list_elem_of_fmap. by exists e. }
          apply (glob_json_elem fs path dir Hdir) in Hin as (n & Hn & Hin & Hjson).
          exists n. split_and!; [done..|by right].
      + unfold validate_catalog_dir in Hrun. by rewrite Hexists, Hbase in Hrun.
    - rewrite validate_missing_base in Hrun by done.
      injection Hrun as <-. by apply Hone. }
  split_and!; [done| |done].
  intros f. unfold errors_for. clear Hpaths Hrun.
  induction errs as [|e errs IH]; [simpl; lia|].
  csimpl in Hnd. apply NoDup_cons in Hnd as [Hfresh Hnd].
  rewrite filter_cons. destruct (decide (error_path e = f)) as [<-|_];
    [|by apply IH].
  assert (filter (λ e', error_path e' = error_path e) errs = []) as ->;
    [|simpl; lia].
  destruct (filter _ errs) as [|e' rest] eqn:Hfilter; [done|]. destruct Hfresh.
  assert (e' ∈ filter (λ e', error_path e' = error_path e) errs) as Hin
    by (rewrite Hfilter; by left).
  apply list_elem_of_filter in Hin as [<- Hin].
  apply list_elem_of_fmap. by exists e'.
Qed.

(** X17. The status of the process. [sys.exit(main())] ends the process with
    status 0 or 1; the status is 0 exactly when both thresholds are resolved
    and both directories are checked without an error. An abort, which
    leaves through [SystemExit] with a message, gives status 1 as a failed
    check does. *)
Theorem exit_status_zero (env : environ) (fs : filesystem) (script : Path) :
  (exit_status (main env fs script) = 0%Z ∨ exit_status (main env fs script) = 1%Z)
  ∧ (exit_status (main env fs script) = 0%Z
     ↔ ∃ cli_ratio wizard_ratio,
         parse_ratio env "I18N_MAX_SAME_RATIO_OPERATOR_CLI" default_cli
           = Return cli_ratio
         ∧ parse_ratio env "I18N_MAX_SAME_RATIO_OPERATOR_WIZARD" default_wizard
           = Return wizard_ratio
         ∧ validate_catalog_dir fs (cli_dir script) cli_ratio = Return []
         ∧ validate_catalog_dir fs (wizard_dir script) wizard_ratio = Return []).
Proof.
  rewrite main_steps.
  destruct (parse_ratio env _ default_cli) as [cli_ratio|]; csimpl;
    [|split; [by right|split; [done|by intros (? & ? & ? & _)]]].
  destruct (parse_ratio env _ default_wizard) as [wizard_ratio|]; csimpl;
    [|split; [by right|split; [done|by intros (? & ? & _ & ? & _)]]].
  destruct (validate_catalog_dir fs (cli_dir script) cli_ratio)
    as [cli_errors|] eqn:Hcli; csimpl.
  2:{ split; [by right|]. split; [done|].
      intros (c & w & [= <-] & [= <-] & Hrun & _). congruence. }
  destruct (validate_catalog_dir fs (wizard_dir script) wizard_ratio)
    as [wizard_errors|] eqn:Hwizard; csimpl.
  2:{ split; [by right|]. split; [done|].
      intros (c & w & [= <-] & [= <-] & _ & Hrun). congruence. }
  destruct cli_errors as [|e cli_errors]; simpl.
  - destruct wizard_errors as [|e wizard_errors]; simpl.
    + split; [by left|]. split; [|done]. intros _. by exists cli_ratio, wizard_ratio.
    + split; [by right|]. split; [done|].
      intros (c & w & [= <-] & [= <-] & _ & Hrun). congruence.
  - split; [by right|]. split; [done|].
    intros (c & w & [= <-] & [= <-] & Hrun & _). congruence.
Qed.

(** *** The further properties on sample directories *)

Lemma key_mismatch_is_justified_witness :
  ∃ data,
    load_json (with_french [("a", "1"); ("c", "3")]) ["i18n"; "fr.json"] = Return data
    ∧ key_set data ≠ key_set base_ab
    ∧ ["missing=1"; "extra=1"] = mismatch_details base_ab data.
Proof.
  destruct (key_mismatch_is_justified (with_french [("a", "1"); ("c", "3")])
              ["i18n"] half base_ab
              [KeyMismatch ["i18n"; "fr.json"] ["missing=1"; "extra=1"]]
              ltac:(vm_compute; reflexivity) ltac:(vm_compute; reflexivity)
              ["i18n"; "fr.json"] ["missing=1"; "extra=1"] ltac:(by left))
    as (_ & _ & data & Hload & Hkeys & Hdetails & _).
  by exists data.
Defined.

Lemma full_clone_is_justified_witness :
  ∃ data,
    load_json (with_french base_ab) ["i18n"; "fr.json"] = Return data
    ∧ key_set data = key_set base_ab
    ∧ ∀ k v, dict_get base_ab k = Some v → dict_get data k = Some v.
Proof.
  destruct (full_clone_is_justified (with_french base_ab) ["i18n"] half base_ab
              [FullClone ["i18n"; "fr.json"] 2 2]
              ltac:(vm_compute; reflexivity) ltac:(vm_compute; reflexivity)
              ["i18n"; "fr.json"] 2 2 ltac:(by left))
    as (_ & _ & _ & _ & _ & data & Hdata).
  by exists data.
Defined.

Lemma ratio_breach_is_justified_witness :
  int_truediv 1 2 = Some half ∧ float_gt half default_wizard = true
  ∧ ∃ data,
      load_json (with_french french_half) ["i18n"; "fr.json"] = Return data
      ∧ key_set data = key_set base_ab
      ∧ 1 = same_values base_ab data.
Proof.
  destruct (ratio_breach_is_justified (with_french french_half) ["i18n"]
              default_wizard base_ab
              [TooManySame ["i18n"; "fr.json"] 1 2 half default_wizard]
              ltac:(vm_compute; reflexivity) ltac:(vm_compute; reflexivity)
              ["i18n"; "fr.json"] 1 2 half default_wizard ltac:(by left))
    as (_ & _ & _ & _ & _ & Hratio & Hgt & data & Hdata).
  split_and!; [done..|]. by exists data.
Defined.

Lemma no_error_means_passed_witness :
  startswith (stem ["i18n"; "fr.json"]) "en" = true
  ∨ ∃ data ratio,
      load_json (with_french french_half) ["i18n"; "fr.json"] = Return data
      ∧ key_set data = key_set base_ab
      ∧ same_values base_ab data < length base_ab
      ∧ int_truediv (same_values base_ab data) (length base_ab) = Some ratio
      ∧ float_gt ratio half = false.
Proof.
  apply (no_error_means_passed (with_french french_half) ["i18n"] half
           [("fr.json", catalog french_half); ("en.json", catalog base_ab)]
           base_ab [] ["i18n"; "fr.json"]); try sample_file.
Defined.


Lemma first_unloadable_file_decides_witness :
  validate_catalog_dir with_numbers ["i18n"] half
  = Raise (SystemExit (NonStringValues ["i18n"; "fr.json"] "c, d, e, f, g")).
Proof.
  apply (first_unloadable_file_decides with_numbers ["i18n"] half base_ab);
    [vm_compute; reflexivity|done|].
  exists [["i18n"; "en.json"]], ["i18n"; "fr.json"], [].
  split_and!; [vm_compute; reflexivity| |reflexivity|vm_compute; reflexivity].
  constructor; [by left|constructor].
Defined.

Lemma nan_threshold_disables_ratio_test_witness :
  parse_ratio (setenv "I18N_MAX_SAME_RATIO_OPERATOR_CLI" "nan")
    "I18N_MAX_SAME_RATIO_OPERATOR_CLI" default_cli = Return S754_nan
  ∧ ∀ e, e ∈ [] → is_ratio_breach e = false.
Proof.
  destruct (nan_threshold_disables_ratio_test
              (setenv "I18N_MAX_SAME_RATIO_OPERATOR_CLI" "nan")
              "I18N_MAX_SAME_RATIO_OPERATOR_CLI" "nan" default_cli
              ltac:(vm_compute; reflexivity) ltac:(vm_compute; reflexivity)
              ltac:(vm_compute; discriminate)) as [Hparse Hnone].
  split; [done|]. intros e.
  apply (Hnone (with_french french_half) ["i18n"]). vm_compute. reflexivity.
Defined.

Lemma looser_threshold_removes_errors_witness :
  loosened half
    (validate_catalog_dir (with_french french_half) ["i18n"] default_wizard)
    (validate_catalog_dir (with_french french_half) ["i18n"] half).
Proof.
  apply (looser_threshold_removes_errors (with_french french_half) ["i18n"]
           default_wizard half).
  vm_compute. reflexivity.
Defined.

Lemma other_entries_are_ignored_witness :
  validate_catalog_dir (replace_entry with_notes ["i18n"] "notes.txt" (catalog base_ab))
    ["i18n"] half
  = validate_catalog_dir with_notes ["i18n"] half.
Proof.
  apply (other_entries_are_ignored with_notes ["i18n"] "notes.txt" (catalog base_ab)).
  reflexivity.
Defined.

Lemma base_language_only_passes_witness :
  validate_catalog_dir british_only ["i18n"] half = Return [].
Proof.
  apply (base_language_only_passes british_only ["i18n"] half base_ab);
    [vm_compute; reflexivity|done|].
  intros g Hg.
  assert (glob_json british_only ["i18n"]
          = [["i18n"; "en-GB.json"]; ["i18n"; "en.json"]]) as Hglob
    by (vm_compute; reflexivity).
  rewrite Hglob in Hg.
  repeat (apply elem_of_cons in Hg as [->|Hg]; [reflexivity|]).
  by apply elem_of_nil in Hg.
Defined.


Lemma resolved_threshold_range_witness :
  ∃ raw,
    getenv (setenv "I18N_MAX_SAME_RATIO_OPERATOR_CLI" "0.25")
      "I18N_MAX_SAME_RATIO_OPERATOR_CLI" = Some raw
    ∧ float_le float_zero (float_of_decimal false 25 (-2)) = true
    ∧ float_le (float_of_decimal false 25 (-2)) float_one = true.
Proof.
  destruct (resolved_threshold_range
              (setenv "I18N_MAX_SAME_RATIO_OPERATOR_CLI" "0.25")
              "I18N_MAX_SAME_RATIO_OPERATOR_CLI" default_cli
              (float_of_decimal false 25 (-2)) ltac:(vm_compute; reflexivity))
    as [[_ Hdefault]|(raw & Hraw & _ & _ & [Hnan|[Hlow Hhigh]])].
  - vm_compute in Hdefault. discriminate.
  - vm_compute in Hnan. discriminate.
  - by exists raw.
Defined.

Lemma last_member_decides_witness :
  ∃ k v, dict_get (reverse french_members) k = Some v ∧ is_str v = false.
Proof.
  pose proof (last_member_decides with_numbers ["i18n"; "fr.json"] french_members
                ltac:(vm_compute; reflexivity)) as Hlast.
  assert (load_json with_numbers ["i18n"; "fr.json"]
          = Raise (SystemExit (NonStringValues ["i18n"; "fr.json"] "c, d, e, f, g")))
    as Hload by (vm_compute; reflexivity).
  rewrite Hload in Hlast. exact Hlast.
Defined.

Lemma item_order_is_irrelevant_witness :
  validate_catalog_dir
    (replace_entry (with_french french_half) ["i18n"] "fr.json"
       (catalog [("b", "X"); ("a", "1")])) ["i18n"] default_wizard
  = validate_catalog_dir (with_french french_half) ["i18n"] default_wizard.
Proof.
  apply (item_order_is_irrelevant (with_french french_half) ["i18n"] "fr.json"
           french_half [("b", "X"); ("a", "1")]).
  - vm_compute. reflexivity.
  - compute_done.
  - apply perm_swap.
Defined.

Lemma one_error_per_file_witness :
  NoDup (error_path
           <$> [KeyMismatch ["i18n"; "fr.json"] ["missing=1"; "extra=1"]]).
Proof.
  apply (one_error_per_file (with_french [("a", "1"); ("c", "3")]) ["i18n"] half
           [("fr.json", catalog [("a", "1"); ("c", "3")]);
            ("en.json", catalog base_ab)]); try sample_file.
Defined.
